(** * BridgeVoice site script: form validation and rate limiting

    A shallow embedding of the four functions exported by [js/main.js]
    ([validateForm], [validateField], [throttle], [debounce]) together with
    the pieces of the JavaScript host they rely on: strings as sequences of
    UTF-16 code units, [String.prototype.trim], a backtracking matcher for the
    regular-expression literal used by both validators, property lookup on a
    plain object, and the timer queue of a single-threaded event loop.  The
    listeners of the page come after them: those of the contact form and its
    messages, of the navigation menu, of lazy loading and scroll animations,
    and the announcer for screen readers. *)

From Stdlib Require Import NArith Lia Sorted.
From stdpp Require Import gmap strings list sorting.

Open Scope N_scope.

(** ** JavaScript strings *)

(** A JavaScript string is a finite sequence of UTF-16 code units. *)
Abbreviation jsstring := (list N).

(** String literals of the source are ASCII; [js] reads one as code units. *)
Fixpoint js (s : string) : jsstring :=
  match s with
  | EmptyString => []
  | String a s' => Ascii.N_of_ascii a :: js s'
  end.
Arguments js : simpl never.

Definition is_nil {A} (l : list A) : bool :=
  match l with [] => true | _ :: _ => false end.

(** The code units that ECMAScript calls WhiteSpace or LineTerminator.  The
    same set is stripped by [trim] and matched by the class escape [\s]. *)
Definition is_space (c : N) : bool :=
  ((9 <=? c) && (c <=? 13))            (* TAB LF VT FF CR *)
  || (c =? 32)                         (* SPACE *)
  || (c =? 160)                        (* NO-BREAK SPACE *)
  || (c =? 5760)                       (* U+1680 *)
  || ((8192 <=? c) && (c <=? 8202))    (* U+2000 .. U+200A *)
  || (c =? 8232) || (c =? 8233)        (* U+2028, U+2029 *)
  || (c =? 8239)                       (* U+202F *)
  || (c =? 8287)                       (* U+205F *)
  || (c =? 12288)                      (* U+3000 *)
  || (c =? 65279).                     (* U+FEFF *)

Fixpoint trimStart (s : jsstring) : jsstring :=
  match s with
  | c :: s' => if is_space c then trimStart s' else s
  | [] => []
  end.

Fixpoint trimEnd (s : jsstring) : jsstring :=
  match s with
  | c :: s' =>
      let r := trimEnd s' in
      if is_nil r && is_space c then [] else c :: r
  | [] => []
  end.

(** [String.prototype.trim] *)
Definition trim (s : jsstring) : jsstring := trimEnd (trimStart s).

(** [String.prototype.toLowerCase], on the ASCII letters.  It is only used
    to compare a tag name with ['email'], and a string lower-cases to
    ['email'] only if each of its code units is one of these five letters in
    either case, so leaving the other code units alone does not change the
    outcome of the comparison. *)
Definition lower_unit (c : N) : N :=
  if (65 <=? c) && (c <=? 90) then c + 32 else c.

Definition toLowerCase (s : jsstring) : jsstring := map lower_unit s.

(** ** Regular expressions *)

Module RegExp.

(** Members of a character class [[...]]. *)
Inductive class_item :=
| ItemSpace                 (* \s *)
| ItemUnit (c : N).         (* a literal code unit *)

Inductive atom :=
| Unit (c : N)                                      (* a literal, e.g. \. *)
| Class (negated : bool) (items : list class_item). (* [...] or [^...] *)

Inductive term :=
| Bol                 (* ^ without the m flag: start of input *)
| Eol                 (* $ without the m flag: end of input *)
| One (a : atom)      (* an atom *)
| Plus (a : atom).    (* an atom followed by + *)

(** A pattern without alternation is a sequence of terms. *)
Definition pattern := list term.

Definition item_has (i : class_item) (c : N) : bool :=
  match i with
  | ItemSpace => is_space c
  | ItemUnit d => c =? d
  end.

Definition atom_accepts (a : atom) (c : N) : bool :=
  match a with
  | Unit d => c =? d
  | Class negated items =>
      let inside := existsb (fun i => item_has i c) items in
      if negated then negb inside else inside
  end.

(** Backtracking matcher: [matches p i s] tells whether [p] matches some
    prefix of the remaining input [s], where [i] code units of the input
    precede [s].  The greedy [+] tries the longer repetition first. *)
Fixpoint matches (p : pattern) : nat -> jsstring -> bool :=
  match p with
  | [] => fun _ _ => true
  | Bol :: p' => fun i s => Nat.eqb i 0 && matches p' i s
  | Eol :: p' => fun i s => is_nil s && matches p' i s
  | One a :: p' =>
      fun i s =>
        match s with
        | c :: s' => atom_accepts a c && matches p' (S i) s'
        | [] => false
        end
  | Plus a :: p' =>
      let continue := matches p' in
      fix repeat (i : nat) (s : jsstring) {struct s} : bool :=
        match s with
        | c :: s' =>
            atom_accepts a c && (repeat (S i) s' || continue (S i) s')
        | [] => false
        end
  end.

(** The search of [RegExp.prototype.exec] for a pattern without the g and
    y flags: try every start index from 0 up to the length of the input. *)
Fixpoint search (p : pattern) (i : nat) (s : jsstring) : bool :=
  matches p i s
  || match s with
     | _ :: s' => search p (S i) s'
     | [] => false
     end.

(** [RegExp.prototype.test] on a string argument. *)
Definition test (p : pattern) (s : jsstring) : bool := search p 0%nat s.

End RegExp.

Import RegExp.

(** [[^\s@]] *)
Definition notSpaceAt : atom := Class true [ItemSpace; ItemUnit 64].

(** The literal [/^[^\s@]+@[^\s@]+\.[^\s@]+$/] of both validators. *)
Definition emailPattern : pattern :=
  [Bol; Plus notSpaceAt; One (Unit 64); Plus notSpaceAt; One (Unit 46);
   Plus notSpaceAt; Eol].

(** ** Values, objects and abrupt completion *)

(** What is thrown: a TypeError of the language itself, or whatever a method
    of a value that was passed in throws. *)
Inductive error := TypeError | Thrown.

Inductive completion (A : Type) :=
| Normal (a : A)
| Throw (e : error).
Arguments Normal {A} a.
Arguments Throw {A} e.

#[global] Instance completion_ret : MRet completion := @Normal.

#[global] Instance completion_bind : MBind completion :=
  fun A B (k : A -> completion B) (c : completion A) =>
    match c with
    | Normal a => k a
    | Throw e => Throw e
    end.

(** Any value other than [undefined], [null] and a string (a number, a
    boolean, an object such as a File or a String object) is given by what
    the code can observe of it: [truth] is what ToBoolean makes of it; [trim]
    is what calling its [trim] method completes with, and [None] when it has
    no callable [trim]; [repr] is what ToString completes with. *)
#[warnings="-register-all"]
Inductive jsval :=
| Undefined
| Null
| Str (s : jsstring)
| Other (truth : bool) (trim : option (completion jsval))
        (repr : completion jsstring).

(** ToBoolean *)
Definition truthy (v : jsval) : bool :=
  match v with
  | Undefined | Null => false
  | Str s => negb (is_nil s)
  | Other truth _ _ => truth
  end.

(** ToString *)
Definition toString (v : jsval) : completion jsstring :=
  match v with
  | Undefined => Normal (js "undefined")
  | Null => Normal (js "null")
  | Str s => Normal s
  | Other _ _ repr => repr
  end.

(** [data.key] on a plain object: an absent key reads as [undefined]. *)
Definition get (data : gmap string jsval) (key : string) : jsval :=
  default Undefined (data !! key).

(** [v?.trim()]: the optional chain stops at [undefined] and [null];
    calling a missing method throws a TypeError; a method of the value's own
    completes as it does. *)
Definition optional_trim (v : jsval) : completion jsval :=
  match v with
  | Undefined | Null => Normal Undefined
  | Str s => Normal (Str (trim s))
  | Other _ None _ => Throw TypeError
  | Other _ (Some result) _ => result
  end.

(** ** validateForm *)

Definition name_required : jsstring := js "Name is required.".
Definition email_required : jsstring := js "Email is required.".
Definition email_invalid : jsstring := js "Please enter a valid email address.".
Definition message_required : jsstring := js "Message is required.".

Definition push {A} (l : list A) (x : A) : list A := l ++ [x].

Definition validateForm (data : gmap string jsval)
  : completion (list jsstring) :=
  let errors := [] in
  name ← optional_trim (get data "name");
  let errors :=
    if negb (truthy name) then push errors name_required else errors in
  email ← optional_trim (get data "email");
  errors ←
    (if negb (truthy email) then mret (push errors email_required)
     else
       text ← toString (get data "email");
       mret (if negb (test emailPattern text)
             then push errors email_invalid
             else errors));
  message ← optional_trim (get data "message");
  let errors :=
    if negb (truthy message) then push errors message_required else errors in
  mret errors.

(** ** validateField *)

(** What [validateField] reads of a form control.  [labels] is the NodeList
    of the labels associated with the control, possibly empty. *)
Record Field := {
  value : jsstring;          (* field.value *)
  type : jsstring;           (* field.type; the empty string is falsy *)
  tagName : jsstring;        (* field.tagName *)
  required : bool;           (* field.required *)
  labels : list jsstring     (* textContent of each element of field.labels *)
}.

(** What [showFieldError] and [hideFieldError] write: the field's [error]
    class, its [aria-invalid] attribute, and the [.error-message] element
    of its parent. *)
Record FieldUI := {
  error_class : bool;
  aria_invalid : option bool;
  error_message : option jsstring
}.

Definition showFieldError (message : jsstring) (ui : FieldUI) : FieldUI :=
  {| error_class := true; aria_invalid := Some true;
     error_message := Some message |}.

Definition hideFieldError (ui : FieldUI) : FieldUI :=
  {| error_class := false; aria_invalid := Some false;
     error_message := None |}.

(** [field.labels[0]?.textContent || 'This field'] *)
Definition label_text (field : Field) : jsstring :=
  match labels field with
  | text :: _ => if is_nil text then js "This field" else text
  | [] => js "This field"
  end.

(** [field.type || field.tagName.toLowerCase()] *)
Definition fieldType (field : Field) : jsstring :=
  if is_nil (type field) then toLowerCase (tagName field) else type field.

(** The local variable [error] when the last [if] of [validateField] is
    reached. *)
Definition field_error (field : Field) : jsstring :=
  let value := trim (value field) in
  let error := [] in
  let error :=
    if required field && is_nil value
    then label_text field ++ js " is required."
    else error in
  let error :=
    if bool_decide (fieldType field = js "email") && negb (is_nil value)
    then if negb (test emailPattern value) then email_invalid else error
    else error in
  error.

Definition validateField (field : Field) (ui : FieldUI) : FieldUI * bool :=
  let error := field_error field in
  if negb (is_nil error)
  then (showFieldError error ui, false)
  else (hideFieldError ui, true).

(** ** Timers of the event loop *)

(** The host keeps a clock in milliseconds and the pending timers, earliest
    first.  Code runs to completion; timers fire only when control is back in
    the event loop ([elapse]), in the order of their due times.  The callbacks
    of [throttle] and [debounce] neither set nor clear timers, so a callback
    acts on the closure state [S] only. *)
Module Timers.
Section Queue.
Context {C : Type}.

Record timer := Timer { handle : N; due : N; callback : C }.

Record host := Host { clock : N; next_handle : N; queue : list timer }.

(** Handles are positive integers. *)
Definition boot : host := Host 0 1 [].

Fixpoint enqueue (t : timer) (q : list timer) : list timer :=
  match q with
  | u :: q' => if due u <=? due t then u :: enqueue t q' else t :: q
  | [] => [t]
  end.

Definition setTimeout (cb : C) (delay : N) (h : host) : N * host :=
  let id := next_handle h in
  (id, Host (clock h) (N.succ id)
            (enqueue (Timer id (clock h + delay) cb) (queue h))).

Definition clearTimeout (id : N) (h : host) : host :=
  Host (clock h) (next_handle h)
       (filter (fun t => handle t <> id) (queue h)).

Fixpoint fire {S} (run : N -> C -> S -> S) (until : N)
    (q : list timer) (s : S) : list timer * S :=
  match q with
  | t :: q' =>
      if due t <=? until
      then fire run until q' (run (due t) (callback t) s)
      else (q, s)
  | [] => ([], s)
  end.

(** [dt] milliseconds pass in the event loop. *)
Definition elapse {S} (run : N -> C -> S -> S) (dt : N)
    (w : host * S) : host * S :=
  let until := clock w.1 + dt in
  let fired := fire run until (queue w.1) w.2 in
  (Host until (next_handle w.1) fired.1, fired.2).
End Queue.
Arguments timer : clear implicits.
Arguments host : clear implicits.
End Timers.

Import Timers.

(** What happens to a wrapped function: it is called, or time passes. *)
Inductive event (A : Type) :=
| Call (a : A)
| Elapse (dt : N).
Arguments Call {A} a.
Arguments Elapse {A} dt.

(** ** throttle *)

Module Throttle.
Section Wrapped.
(** [A] stands for what a call passes on: [this] and [arguments]. *)
Context {A : Type}.

(** The arrow function handed to [setTimeout]. *)
Inductive callback := Reopen.

(** [inThrottle] ([undefined] at first, which is falsy) and the record of
    the invocations of [func], each with its time. *)
Record closure := Closure { inThrottle : bool; invoked : list (N * A) }.

Definition world : Type := host callback * closure.

Definition init : world := (boot, Closure false []).

Definition run_callback (now : N) (cb : callback) (s : closure) : closure :=
  match cb with
  | Reopen => Closure false (invoked s)
  end.

(** How a call ends. *)
Inductive outcome := Returned | Threw.

(** One application of [func], as far as the wrapper can tell: it returns, it
    throws, or it first calls the wrapped function itself with [a] and goes
    on as [next] says, given how that call ended; [inner] is what [func] does
    in the application that this nested call leads to, if it leads to
    one. *)
Inductive behaviour :=
| Returns
| Throws
| Calls (a : A) (inner : behaviour) (next : outcome -> behaviour).

Variable func : A -> behaviour.
Variable limit : N.

(** [func] is entered with [a]. *)
Definition logged (a : A) (w : world) : world :=
  (w.1, Closure (inThrottle w.2) (push (invoked w.2) (clock w.1, a))).

(** [inThrottle = true; setTimeout(() => { inThrottle = false; }, limit)]. *)
Definition shut (w : world) : world :=
  let scheduled := setTimeout Reopen limit w.1 in
  (scheduled.2, Closure true (invoked w.2)).

(** The body of the returned function, called with [a], where [apply_func]
    runs [func.apply(context, args)]: when that throws, the two statements
    after it are not reached. *)
Definition wrapped (apply_func : world -> world * outcome) (a : A)
    (w : world) : world * outcome :=
  if negb (inThrottle w.2) then
    let applied := apply_func (logged a w) in
    match applied.2 with
    | Returned => (shut applied.1, Returned)
    | Threw => (applied.1, Threw)
    end
  else (w, Returned).

Fixpoint apply (b : behaviour) (w : world) : world * outcome :=
  match b with
  | Returns => (w, Returned)
  | Throws => (w, Threw)
  | Calls a inner next =>
      let called := wrapped (apply inner) a w in
      apply (next called.2) called.1
  end.

(** The function returned by [throttle(func, limit)], called with [a] from
    the event loop, which goes on whether the call returns or throws. *)
Definition throttle (a : A) (w : world) : world :=
  (wrapped (apply (func a)) a w).1.

Definition step (w : world) (e : event A) : world :=
  match e with
  | Call a => throttle a w
  | Elapse dt => elapse run_callback dt w
  end.

Definition run (trace : list (event A)) (w : world) : world :=
  foldl step w trace.

(** The window is open: [func] was last invoked at [t] and the timer that
    will end the window [limit] later is the one pending timer. *)
Definition window_open (w : world) : Prop :=
  inThrottle w.2 = true
  /\ exists t a id,
       last (invoked w.2) = Some (t, a)
       /\ queue w.1 = [Timer id (t + limit) Reopen]
       /\ t <= clock w.1 <= t + limit.

(** The window is closed: no timer is pending, and the last invocation of
    [func], if any, is at least [limit] in the past. *)
Definition window_closed (w : world) : Prop :=
  inThrottle w.2 = false
  /\ queue w.1 = []
  /\ forall t a, last (invoked w.2) = Some (t, a) -> t + limit <= clock w.1.

Definition consistent (w : world) : Prop := window_open w \/ window_closed w.
End Wrapped.
Arguments closure : clear implicits.
Arguments world : clear implicits.
Arguments behaviour : clear implicits.
End Throttle.

(** ** debounce *)

Module Debounce.
(** The variable [timeout]: [undefined] at first, [null] once [later] has
    run, otherwise the handle returned by [setTimeout]. *)
Inductive timeout_value :=
| NotSet
| Nulled
| Handle (id : N).

Definition pending (t : timeout_value) : bool :=
  match t with
  | NotSet | Nulled => false
  | Handle id => negb (id =? 0)
  end.

Section Wrapped.
Context {A : Type}.
Variable wait : N.
Variable immediate : bool.

(** The function [later] of one call, which closes over its [a]. *)
Inductive callback := Later (a : A).

Record closure := Closure { timeout : timeout_value; invoked : list (N * A) }.

Definition world : Type := host callback * closure.

Definition init : world := (boot, Closure NotSet []).

Definition run_callback (now : N) (cb : callback) (s : closure) : closure :=
  match cb with
  | Later a =>
      Closure Nulled
        (if negb immediate then push (invoked s) (now, a) else invoked s)
  end.

(** [clearTimeout(timeout)]: nothing happens unless [timeout] is a handle. *)
Definition clear (t : timeout_value) (h : host callback) : host callback :=
  match t with
  | Handle id => clearTimeout id h
  | NotSet | Nulled => h
  end.

(** The function returned by [debounce(func, wait, immediate)], called
    with [a]. *)
Definition debounce (a : A) (w : world) : world :=
  let callNow := immediate && negb (pending (timeout w.2)) in
  let cleared := clear (timeout w.2) w.1 in
  let scheduled := setTimeout (Later a) wait cleared in
  let log :=
    if callNow then push (invoked w.2) (clock scheduled.2, a)
    else invoked w.2 in
  (scheduled.2, Closure (Handle scheduled.1) log).

Definition step (w : world) (e : event A) : world :=
  match e with
  | Call a => debounce a w
  | Elapse dt => elapse run_callback dt w
  end.

Definition run (trace : list (event A)) (w : world) : world :=
  foldl step w trace.

(** The state right after a call, whatever was pending before: the one
    pending timer is the new one. *)
Definition rearmed (a : A) (w : world) (log : list (N * A)) : world :=
  (Host (clock w.1) (N.succ (next_handle w.1))
        [Timer (next_handle w.1) (clock w.1 + wait) (Later a)],
   Closure (Handle (next_handle w.1)) log).

(** A burst: a first call, then further calls, each after a pause. *)
Definition burst (first : A) (rest : list (N * A)) : list (event A) :=
  Call first :: flat_map (fun c => [Elapse c.1; Call c.2]) rest.

(** What the last call of a burst passes on, and the time the burst takes. *)
Definition last_call (first : A) (rest : list (N * A)) : A :=
  from_option snd first (last rest).

Definition pauses (rest : list (N * A)) : N :=
  foldr (fun c total => c.1 + total) 0 rest.

(** The variable [timeout] holds the handle of the one pending timer, which
    is due at [at_] and will run [later] for the call that passed [a]. *)
Definition armed (w : world) (id at_ : N) (a : A) : Prop :=
  timeout w.2 = Handle id /\ id <> 0
  /\ queue w.1 = [Timer id at_ (Later a)].

(** No timer is pending and [timeout] is falsy. *)
Definition idle (w : world) : Prop :=
  queue w.1 = [] /\ pending (timeout w.2) = false.

Definition consistent (w : world) : Prop :=
  next_handle w.1 <> 0 /\ (idle w \/ exists id at_ a, armed w id at_ a).
End Wrapped.
Arguments closure : clear implicits.
Arguments world : clear implicits.
End Debounce.

(** ** Vocabulary of the statements *)

(** A FormInput whose three fields are the given strings. *)
Definition form (name email message : jsstring) : gmap string jsval :=
  {[ "name" := Str name; "email" := Str email; "message" := Str message ]}.

(** The text of a field of a string-valued mapping; an absent key gives
    the empty text. *)
Definition text (d : gmap string jsstring) (key : string) : jsstring :=
  default [] (d !! key).

(** The same field holding another text. *)
Definition with_value (text : jsstring) (field : Field) : Field :=
  {| value := text; type := type field; tagName := tagName field;
     required := required field; labels := labels field |}.

(** A code unit that is neither white space nor [@]. *)
Definition plain (c : N) : Prop := is_space c = false /\ c <> 64.

(** What the email pattern describes, read off the literal: a non-empty run
    of plain code units, [@], a second such run, a dot, and a third run, with
    nothing before or after. *)
Definition email_shape (s : jsstring) : Prop :=
  exists user domain tail : jsstring,
    s = user ++ 64 :: domain ++ 46 :: tail
    /\ user <> [] /\ domain <> [] /\ tail <> []
    /\ Forall plain user /\ Forall plain domain /\ Forall plain tail.

(** The errors [validateForm] reports for each field, given its text. *)
Definition name_errors (name : jsstring) : list jsstring :=
  if is_nil (trim name) then [name_required] else [].

Definition email_errors (email : jsstring) : list jsstring :=
  if is_nil (trim email) then [email_required]
  else if test emailPattern email then [] else [email_invalid].

Definition message_errors (message : jsstring) : list jsstring :=
  if is_nil (trim message) then [message_required] else [].

(** ** The listeners of the contact form *)

(** The listener of a field's [input] event: the [error] class and the error
    message go; [aria-invalid] is not touched. *)
Definition on_input (ui : FieldUI) : FieldUI :=
  {| error_class := false; aria_invalid := aria_invalid ui;
     error_message := None |}.

(** What happens to a field: it loses focus, which runs [validateField], or
    the user changes its text, which runs the [input] listener. *)
Inductive field_event :=
| Blur
| Input (text : jsstring).

Definition field_step (s : Field * FieldUI) (e : field_event)
  : Field * FieldUI :=
  match e with
  | Blur => (s.1, (validateField s.1 s.2).1)
  | Input text => (with_value text s.1, on_input s.2)
  end.

Definition field_run (trace : list field_event) (s : Field * FieldUI)
  : Field * FieldUI :=
  foldl field_step s trace.

(** [Array.prototype.join] on an array of strings. *)
Fixpoint join (separator : jsstring) (l : list jsstring) : jsstring :=
  match l with
  | [] => []
  | x :: rest =>
      match rest with
      | [] => x
      | _ :: _ => x ++ separator ++ join separator rest
      end
  end.

(** The line break and bullet between two errors. *)
Definition bullet : jsstring := [10; 8226; 32].

Definition errors_header : jsstring := js "Please fix the following errors:".

(** The text [showFormErrors] hands to [showFormMessage]. *)
Definition errorMessage (errors : list jsstring) : jsstring :=
  match errors with
  | [only] => only
  | _ => errors_header ++ bullet ++ join bullet errors
  end.

Definition thanks : jsstring :=
  js "Thank you for your message! We'll get back to you soon.".

Module FormMessages.

(** A [div.form-message]: its identity, the [type] it was shown with and
    its text. *)
Record element := Element { node : N; kind : jsstring; content : jsstring }.

(** The [.form-message] descendants of the form in document order, the
    identity of the next element to be created, whether the style sheet of
    the messages is in the document, and how often the form was reset. *)
Record page := Page {
  messages : list element;
  next_node : N;
  message_styles : bool;
  resets : nat
}.

(** The arrow function of the auto-hide timer, which closes over its
    [messageElement]. *)
Inductive callback := AutoHide (id : N).

Definition world : Type := host callback * page.

Definition init : world := (boot, Page [] 0 false 0%nat).

(** [element.remove()] of the element [id], if it is attached. *)
Definition detach (id : N) (l : list element) : list element :=
  filter (fun m => node m <> id) l.

Definition run_callback (now : N) (cb : callback) (p : page) : page :=
  match cb with
  | AutoHide id =>
      Page (detach id (messages p)) (next_node p) (message_styles p) (resets p)
  end.

Definition showFormMessage (message type : jsstring) (w : world) : world :=
  let remaining :=
    match messages w.2 with
    | existingMessage :: others => others
    | [] => []
    end in
  let messageElement := Element (next_node w.2) type message in
  let p :=
    Page (messageElement :: remaining) (N.succ (next_node w.2)) true
         (resets w.2) in
  if bool_decide (type = js "success")
  then ((setTimeout (AutoHide (node messageElement)) 5000 w.1).2, p)
  else (w.1, p).

Definition showFormErrors (errors : list jsstring) (w : world) : world :=
  showFormMessage (errorMessage errors) (js "error") w.

(** [form.reset()] *)
Definition reset (w : world) : world :=
  (w.1, Page (messages w.2) (next_node w.2) (message_styles w.2)
             (S (resets w.2))).

(** The listener of the form's [submit] event, where [data] is what
    [Object.fromEntries(new FormData(form))] evaluates to. *)
Definition on_submit (data : gmap string jsval) (w : world)
  : completion world :=
  errors ← validateForm data;
  if is_nil errors
  then mret (reset (showFormMessage thanks (js "success") w))
  else mret (showFormErrors errors w).

Inductive event :=
| Submit (data : gmap string jsval)
| Elapse (dt : N).

(** An exception thrown by a listener ends that listener and nothing
    else. *)
Definition step (w : world) (e : event) : world :=
  match e with
  | Submit data =>
      match on_submit data w with
      | Normal w' => w'
      | Throw _ => w
      end
  | Elapse dt => elapse run_callback dt w
  end.

Definition run (trace : list event) (w : world) : world :=
  foldl step w trace.

(** Identities are fresh: every attached message and every element a timer
    closes over was created before [next_node]. *)
Definition fresh (w : world) : Prop :=
  Forall (fun m => node m < next_node w.2) (messages w.2)
  /\ Forall (fun t => match Timers.callback t with
                      | AutoHide id => id < next_node w.2
                      end)
            (queue w.1).

(** Messages and pending timers only refer to elements created so far, and
    at most one message is attached. *)
Definition tidy (w : world) : Prop :=
  fresh w /\ (length (messages w.2) <= 1)%nat.

End FormMessages.

(** ** The navigation menu *)

(** The toggle button and the menu are two separate elements, all links of
    the menu carry the listener of [initializeNavigation], and the toggle is
    no same-page anchor.  A click names where it lands and whether it is on
    an [a[href^="#"]] whose target exists, in which case the listener of
    [initializeSmoothScroll] runs its body as well. *)
Module Navigation.

Inductive focus_target := FirstMenuLink | Toggle | ScrollTarget.

(** The [active] class of the menu and of the toggle, the toggle's
    [aria-expanded] attribute, and the element the script focused last. *)
Record nav := Nav {
  menu_active : bool;
  toggle_active : bool;
  aria_expanded : jsstring;
  focused : option focus_target
}.

Inductive target :=
| OnToggle
| OnMenuLink (anchor : bool)
| InMenu
| Outside (anchor : bool).

Inductive event :=
| Click (t : target)
| KeyDown (key : jsstring).

Section Listeners.
(** Whether [navMenu.querySelector('a')] finds a link. *)
Variable has_link : bool.

(** ToString of a boolean, as [setAttribute] applies it. *)
Definition of_bool (b : bool) : jsstring := if b then js "true" else js "false".

Definition toggle_click (s : nav) : nav :=
  let isOpen := menu_active s in
  Nav (negb (menu_active s)) (negb (toggle_active s)) (of_bool (negb isOpen))
      (if negb isOpen && has_link then Some FirstMenuLink else focused s).

(** What the outside-click listener and the link listeners do. *)
Definition close (s : nav) : nav := Nav false false (js "false") (focused s).

Definition document_click (t : target) (s : nav) : nav :=
  match t with
  | Outside _ => close s
  | OnToggle | OnMenuLink _ | InMenu => s
  end.

Definition keydown (key : jsstring) (s : nav) : nav :=
  if bool_decide (key = js "Escape") && menu_active s
  then Nav false false (js "false") (Some Toggle)
  else s.

(** The body of the smooth-scroll listener when the target exists. *)
Definition smooth_scroll (s : nav) : nav :=
  if menu_active s
  then Nav false (toggle_active s) (js "false") (Some ScrollTarget)
  else Nav (menu_active s) (toggle_active s) (aria_expanded s)
           (Some ScrollTarget).

Definition when (b : bool) (f : nav -> nav) (s : nav) : nav :=
  if b then f s else s.

(** The listeners a click reaches, in the order they run: those of the
    element (in the order they were registered), then those of the
    document. *)
Definition click (t : target) (s : nav) : nav :=
  match t with
  | OnToggle => document_click t (toggle_click s)
  | OnMenuLink anchor => document_click t (when anchor smooth_scroll (close s))
  | InMenu => document_click t s
  | Outside anchor => document_click t (when anchor smooth_scroll s)
  end.

Definition step (s : nav) (e : event) : nav :=
  match e with
  | Click t => click t s
  | KeyDown key => keydown key s
  end.

Definition run (trace : list event) (s : nav) : nav := foldl step s trace.

(** The toggle looks and announces what the menu is. *)
Definition in_sync (s : nav) : Prop :=
  toggle_active s = menu_active s /\ aria_expanded s = of_bool (menu_active s).
End Listeners.

End Navigation.

(** ** Lazy loading of images *)

Module LazyLoading.

(** What the script reads and writes of an [img[loading="lazy"]]: its two
    classes, and whether the observer watches it. *)
Record image := Image {
  lazy_loading : bool;
  lazy_loaded : bool;
  observed : bool
}.

(** An IntersectionObserverEntry: its target, as an index into the list of
    images, and whether it intersects. *)
Record entry := Entry { target : nat; isIntersecting : bool }.

(** The body of the observer's callback for one entry. *)
Definition on_entry (images : list image) (e : entry) : list image :=
  if isIntersecting e
  then alter (fun img => Image (lazy_loading img) true false) (target e) images
  else images.

(** The observer's callback on a batch of entries. *)
Definition on_intersection (images : list image) (entries : list entry)
  : list image :=
  foldl on_entry images entries.

(** [initializeLazyLoading], where [supported] tells whether
    ['IntersectionObserver' in window]. *)
Definition initializeLazyLoading (supported : bool) (images : list image)
  : list image :=
  if supported
  then map (fun img => Image true (lazy_loaded img) true) images
  else map (fun img => Image (lazy_loading img) true (observed img)) images.

(** Some entry reported the image [i] as intersecting. *)
Definition seen (i : nat) (entries : list entry) : Prop :=
  exists e, e ∈ entries /\ target e = i /\ isIntersecting e = true.

End LazyLoading.

(** ** Scroll animations *)

Module ScrollAnimations.

(** The inline style the script sets on an animated element. *)
Record style := Style {
  opacity : jsstring;
  transform : jsstring;
  transition : jsstring
}.

Record entry := Entry { target : nat; isIntersecting : bool }.

(** The body of the observer's callback for one entry. *)
Definition on_entry (elements : list style) (e : entry) : list style :=
  if isIntersecting e
  then alter (fun s => Style (js "1") (js "translateY(0)") (transition s))
             (target e) elements
  else elements.

Definition on_intersection (elements : list style) (entries : list entry)
  : list style :=
  foldl on_entry elements entries.

(** [initializeScrollAnimations], where [supported] tells whether
    ['IntersectionObserver' in window]. *)
Definition initializeScrollAnimations (supported : bool)
    (elements : list style) : list style :=
  if negb supported then elements
  else map (fun _ => Style (js "0") (js "translateY(30px)")
                           (js "opacity 0.6s ease, transform 0.6s ease"))
           elements.

(** Some entry reported the element [i] as intersecting. *)
Definition seen (i : nat) (entries : list entry) : Prop :=
  exists e, e ∈ entries /\ target e = i /\ isIntersecting e = true.

End ScrollAnimations.

(** ** Announcements for screen readers *)

Module Announcer.

(** A [div.sr-only] made by [announceToScreenReader]. *)
Record element := Element { node : N; content : jsstring }.

(** The announcements among the children of the body in document order, the
    identity of the next element to be created, and how many exceptions the
    timer callbacks have thrown. *)
Record page := Page {
  announcements : list element;
  next_node : N;
  uncaught : nat
}.

(** The arrow function of the removal timer, which closes over its
    [announcement]. *)
Inductive callback := RemoveChild (id : N).

Definition world : Type := host callback * page.

Definition init : world := (boot, Page [] 0 0%nat).

Definition attached (id : N) (l : list element) : bool :=
  existsb (fun el => node el =? id) l.

(** [document.body.removeChild(announcement)] throws when the element is
    not a child of the body. *)
Definition run_callback (now : N) (cb : callback) (p : page) : page :=
  match cb with
  | RemoveChild id =>
      if attached id (announcements p)
      then Page (filter (fun el => node el <> id) (announcements p))
                (next_node p) (uncaught p)
      else Page (announcements p) (next_node p) (S (uncaught p))
  end.

Definition announceToScreenReader (message : jsstring) (w : world) : world :=
  let announcement := Element (next_node w.2) message in
  let p :=
    Page (announcements w.2 ++ [announcement]) (N.succ (next_node w.2))
         (uncaught w.2) in
  ((setTimeout (RemoveChild (node announcement)) 1000 w.1).2, p).

Inductive event :=
| Announce (message : jsstring)
| Elapse (dt : N).

Definition step (w : world) (e : event) : world :=
  match e with
  | Announce message => announceToScreenReader message w
  | Elapse dt => elapse run_callback dt w
  end.

Definition run (trace : list event) (w : world) : world := foldl step w trace.

(** The time that passes in a trace. *)
Definition elapsed (trace : list event) : N :=
  foldr (fun e total =>
           match e with
           | Elapse dt => dt + total
           | Announce _ => total
           end)
        0 trace.

(** Each announcement has its removal timer, in the same order; the timers
    are due in order, after now and at most 1000 ms from now; identities are
    fresh and distinct; and no callback has thrown. *)
Definition orderly (w : world) : Prop :=
  map Timers.callback (queue w.1)
  = map (fun el => RemoveChild (node el)) (announcements w.2)
  /\ StronglySorted (fun u v => due u <= due v) (queue w.1)
  /\ Forall (fun u => clock w.1 < due u <= clock w.1 + 1000) (queue w.1)
  /\ NoDup (map node (announcements w.2))
  /\ Forall (fun el => node el < next_node w.2) (announcements w.2)
  /\ uncaught w.2 = 0%nat.

End Announcer.

(** ** Vocabulary of the further statements *)

(** Consecutive invocations are at least [gap] apart. *)
Definition spaced {A} (gap : N) (log : list (N * A)) : Prop :=
  forall i t1 a1 t2 a2,
    log !! i = Some (t1, a1) -> log !! S i = Some (t2, a2) -> t1 + gap <= t2.

(** The invocations of a debounced function so far are spaced; the last one
    is in the past; a pending timer is due [wait] or more after it; and with
    [immediate] set, once no timer is pending it is [wait] or more in the
    past. *)
Definition debounce_timed {A} (wait : N) (immediate : bool)
    (w : Debounce.world A) : Prop :=
  spaced wait (Debounce.invoked w.2)
  /\ forall t a,
       last (Debounce.invoked w.2) = Some (t, a) ->
       t <= clock w.1
       /\ (forall u, u ∈ queue w.1 -> t + wait <= due u)
       /\ (immediate = true -> queue w.1 = [] -> t + wait <= clock w.1).

(** [v?.trim()] completes normally: [v] is [undefined], [null], a string,
    or a value whose own [trim] method returns. *)
Definition trimmable (v : jsval) : Prop :=
  match v with
  | Undefined | Null | Str _ => True
  | Other _ (Some (Normal _)) _ => True
  | Other _ _ _ => False
  end.

(** [v?.trim()] completes with a truthy value. *)
Definition trims_truthy (v : jsval) : bool :=
  match v with
  | Str s => negb (is_nil (trim s))
  | Other _ (Some (Normal result)) _ => truthy result
  | _ => false
  end.

(** ToString of [v] completes normally. *)
Definition printable (v : jsval) : Prop :=
  match v with
  | Other _ _ (Throw _) => False
  | _ => True
  end.

(** [v] has no [trim] method of its own: it is [undefined], [null], a
    string, or a value without a callable [trim]. *)
Definition plain_value (v : jsval) : Prop :=
  match v with
  | Other _ (Some _) _ => False
  | _ => True
  end.

(** How often the code unit [c] occurs in [s]. *)
Definition occurrences (c : N) (s : jsstring) : nat :=
  length (filter (fun d => d = c) s).

(** * Properties *)

(** ** Strings *)

Lemma is_nil_true {A} (l : list A) : is_nil l = true <-> l = [].
Proof. destruct l; simpl; split; congruence. Qed.

Lemma is_nil_false {A} (l : list A) : is_nil l = false <-> l <> [].
Proof. destruct l; simpl; split; congruence. Qed.

Lemma trimStart_plain_head c s :
  is_space c = false -> trimStart (c :: s) = c :: s.
Proof. intros H. simpl. now rewrite H. Qed.

Lemma trimEnd_app_plain s c :
  is_space c = false -> trimEnd (s ++ [c]) = s ++ [c].
Proof.
  intros H. induction s as [|d s IH]; simpl.
  - now rewrite H.
  - rewrite IH. destruct (s ++ [c]) eqn:E; [now destruct s|]. reflexivity.
Qed.

(** A string without white space at either end is its own trim. *)
Lemma trim_fixed (s : jsstring) :
  Forall (fun c => is_space c = false) s -> trim s = s.
Proof.
  intros H. unfold trim.
  destruct s as [|c s]; [reflexivity|].
  rewrite trimStart_plain_head by (now inversion H).
  destruct (exists_last (l := c :: s)) as (s' & d & E); [discriminate|].
  rewrite E in H |- *. apply trimEnd_app_plain.
  rewrite Forall_app in H. destruct H as [_ H]. now inversion H.
Qed.

(** ** The matcher on the email pattern *)

Lemma notSpaceAt_accepts c : atom_accepts notSpaceAt c = true <-> plain c.
Proof.
  unfold plain. simpl. rewrite orb_false_r, negb_true_iff, orb_false_iff.
  now rewrite N.eqb_neq.
Qed.

Lemma matches_One a p i s :
  matches (One a :: p) i s = true <->
  exists c s', s = c :: s' /\ atom_accepts a c = true
               /\ matches p (S i) s' = true.
Proof.
  simpl. destruct s as [|c s'].
  - split; [discriminate | intros (? & ? & ? & _); discriminate].
  - rewrite andb_true_iff. split.
    + intros [? ?]. eauto.
    + intros (? & ? & [= <- <-] & ? & ?). auto.
Qed.

(** [+] takes a non-empty run of accepted code units, then the rest of the
    pattern matches what follows. *)
Lemma matches_Plus a p s : forall i,
  matches (Plus a :: p) i s = true <->
  exists run rest, s = run ++ rest /\ run <> []
                   /\ Forall (fun c => atom_accepts a c = true) run
                   /\ matches p (i + length run)%nat rest = true.
Proof.
  induction s as [|c s IH]; intros i.
  - simpl. split; [discriminate|].
    intros (run & rest & E & Hne & _). destruct run; [congruence | discriminate].
  - change (matches (Plus a :: p) i (c :: s))
      with (atom_accepts a c
            && (matches (Plus a :: p) (S i) s || matches p (S i) s)).
    rewrite andb_true_iff, orb_true_iff, IH. split.
    + intros [Hc [(run & rest & -> & Hne & Hrun & Hrest) | Hrest]].
      * exists (c :: run), rest. repeat split; auto; try discriminate.
        simpl. now replace (i + S (length run))%nat with (S i + length run)%nat by lia.
      * exists [c], s. repeat split; auto; try discriminate.
        simpl. now replace (i + 1)%nat with (S i) by lia.
    + intros (run & rest & E & Hne & Hrun & Hrest).
      destruct run as [|d run]; [congruence|].
      injection E as <- ->. inversion Hrun as [|? ? Hd Hrun']; subst.
      split; [assumption|].
      destruct run as [|e run].
      * right. simpl in Hrest. now replace (i + 1)%nat with (S i) in Hrest by lia.
      * left. exists (e :: run), rest. repeat split; auto; try discriminate.
        now replace (S i + length (e :: run))%nat
          with (i + length (c :: e :: run))%nat by (simpl; lia).
Qed.

Lemma matches_Eol i s : matches [Eol] i s = true <-> s = [].
Proof. simpl. rewrite andb_true_r. apply is_nil_true. Qed.

(** A pattern that starts with [^] matches at index 0 only. *)
Lemma search_Bol_later p s : forall i, search (Bol :: p) (S i) s = false.
Proof. induction s as [|c s IH]; intros i; simpl; [reflexivity | apply IH]. Qed.

Lemma test_Bol p s : test (Bol :: p) s = matches p 0%nat s.
Proof.
  unfold test. destruct s as [|c s]; simpl.
  - now rewrite orb_false_r.
  - now rewrite search_Bol_later, orb_false_r.
Qed.

Lemma Forall_accepts_plain run :
  Forall (fun c => atom_accepts notSpaceAt c = true) run <-> Forall plain run.
Proof. apply Forall_iff. intros c. apply notSpaceAt_accepts. Qed.

(** The matcher accepts exactly the strings of the shape the literal
    describes. *)
Lemma test_emailPattern (s : jsstring) :
  test emailPattern s = true <-> email_shape s.
Proof.
  unfold emailPattern, email_shape. rewrite test_Bol, matches_Plus. split.
  - intros (user & r1 & -> & Hu & Fu & H1).
    apply matches_One in H1 as (c1 & r2 & -> & Hc1 & H2).
    apply N.eqb_eq in Hc1 as ->.
    apply matches_Plus in H2 as (domain & r3 & -> & Hh & Fh & H3).
    apply matches_One in H3 as (c2 & r4 & -> & Hc2 & H4).
    apply N.eqb_eq in Hc2 as ->.
    apply matches_Plus in H4 as (tail & r5 & -> & Ht & Ft & H5).
    apply matches_Eol in H5 as ->.
    exists user, domain, tail. rewrite app_nil_r.
    rewrite !Forall_accepts_plain in *. auto 10.
  - intros (user & domain & tail & -> & Hu & Hh & Ht & Fu & Fh & Ft).
    exists user, (64 :: domain ++ 46 :: tail).
    rewrite Forall_accepts_plain. repeat split; auto.
    apply matches_One. exists 64, (domain ++ 46 :: tail). repeat split.
    apply matches_Plus. exists domain, (46 :: tail).
    rewrite Forall_accepts_plain. repeat split; auto.
    apply matches_One. exists 46, tail. repeat split.
    apply matches_Plus. exists tail, []. rewrite app_nil_r.
    rewrite Forall_accepts_plain. repeat split; auto.
Qed.

(** A string of the email shape has no white space at all. *)
Lemma email_shape_no_space s :
  email_shape s -> Forall (fun c => is_space c = false) s.
Proof.
  intros (user & domain & tail & -> & _ & _ & _ & Fu & Fh & Ft).
  assert (P : forall l, Forall plain l -> Forall (fun c => is_space c = false) l).
  { intros l Hl. eapply Forall_impl; [exact Hl|]. now intros c [? _]. }
  rewrite Forall_app, Forall_cons, Forall_app, Forall_cons. auto 10.
Qed.

Lemma email_shape_nonempty s : email_shape s -> s <> [].
Proof. intros (user & ? & ? & -> & ? & _). now destruct user. Qed.

Lemma email_shape_trim s : email_shape s -> trim s = s.
Proof. intros H. apply trim_fixed, email_shape_no_space, H. Qed.

(** ** validateForm on string-valued mappings *)

Lemma get_strings (d : gmap string jsstring) key :
  get (Str <$> d) key = from_option Str Undefined (d !! key).
Proof. unfold get. rewrite lookup_fmap. now destruct (d !! key). Qed.

(** On a mapping whose present values are strings, [validateForm] completes
    normally with the errors of the three fields, in order. *)
Lemma validateForm_strings (d : gmap string jsstring) :
  validateForm (Str <$> d)
  = Normal (name_errors (text d "name") ++ email_errors (text d "email")
            ++ message_errors (text d "message")).
Proof.
  unfold validateForm, name_errors, email_errors, message_errors, text.
  rewrite !get_strings.
  destruct (d !! "name") as [n|], (d !! "email") as [e|],
    (d !! "message") as [m|]; simpl;
    repeat match goal with
      | |- context [is_nil (trim ?s)] => destruct (is_nil (trim s)); simpl
      | |- context [test emailPattern ?s] =>
          destruct (test emailPattern s); simpl
      end; reflexivity.
Qed.

Lemma form_strings name email message :
  form name email message
  = Str <$> ({[ "name" := name; "email" := email; "message" := message ]}
             : gmap string jsstring).
Proof. unfold form. now rewrite !fmap_insert, map_fmap_singleton. Qed.

Lemma validateForm_form name email message :
  validateForm (form name email message)
  = Normal (name_errors name ++ email_errors email ++ message_errors message).
Proof. rewrite form_strings, validateForm_strings. reflexivity. Qed.

Lemma name_errors_nil s : name_errors s = [] <-> trim s <> [].
Proof.
  unfold name_errors. destruct (trim s); simpl; split; congruence.
Qed.

Lemma message_errors_nil s : message_errors s = [] <-> trim s <> [].
Proof.
  unfold message_errors. destruct (trim s); simpl; split; congruence.
Qed.

Lemma email_errors_nil s :
  email_errors s = [] <-> trim s <> [] /\ email_shape s.
Proof.
  unfold email_errors. rewrite <- test_emailPattern.
  destruct (trim s); simpl; [split; [discriminate | intros [? _]; congruence]|].
  destruct (test emailPattern s); split; try discriminate; auto.
  intros [_ ?]. discriminate.
Qed.

Lemma field_errors_sublist flag (a : jsstring) rest full :
  rest `sublist_of` full ->
  ((if flag : bool then [a] else []) ++ rest) `sublist_of` (a :: full).
Proof.
  intros H. destruct flag; simpl.
  - now apply sublist_skip.
  - now apply sublist_cons.
Qed.

(** The email field reports one of its two errors or none, and which one is
    decided by the emptiness of the trimmed text. *)
Lemma email_errors_cases email :
  (trim email = [] /\ email_errors email = [email_required])
  \/ (trim email <> [] /\ email_errors email = [email_invalid]
      /\ test emailPattern email = false)
  \/ (trim email <> [] /\ email_errors email = []
      /\ test emailPattern email = true).
Proof.
  unfold email_errors. destruct (trim email); simpl.
  - now left.
  - right. destruct (test emailPattern email); [right | left]; easy.
Qed.

Lemma strings_distinct :
  name_required <> email_required /\ name_required <> email_invalid
  /\ message_required <> email_required /\ message_required <> email_invalid
  /\ email_required <> email_invalid.
Proof. repeat split; discriminate. Qed.

(** C1.  An email whose trimmed text is non-empty and matches the pattern
    should never be reported as invalid.  [validateForm] does not ensure it:
    it trims the email for the emptiness check only and runs the pattern on
    the text as given.  With one leading space in front of a well-formed
    address the trimmed text matches the pattern, yet the form is reported
    invalid, while [validateField] accepts the same text in an email
    field. *)
Theorem validateForm_rejects_padded_email :
  trim (js " john@example.com") = js "john@example.com"
  /\ test emailPattern (trim (js " john@example.com")) = true
  /\ validateForm (form (js "John Doe") (js " john@example.com")
                        (js "Test message"))
     = Normal [js "Please enter a valid email address."]
  /\ forall ui,
       (validateField {| value := js " john@example.com"; type := js "email";
                         tagName := js "INPUT"; required := true;
                         labels := [js "Email"] |} ui).2 = true.
Proof. repeat split. Qed.

(** C2.  [validateForm] returns the empty list exactly when the trimmed name
    is non-empty, the trimmed message is non-empty, and the email is
    non-empty after trimming and has the shape of the email pattern; in
    particular it returns the empty list for every form whose three fields
    are non-empty after trimming and whose email matches the pattern. *)
Theorem validateForm_empty_iff_all_pass :
  (forall d : gmap string jsstring,
     validateForm (Str <$> d) = Normal [] <->
     trim (text d "name") <> [] /\ trim (text d "message") <> []
     /\ trim (text d "email") <> [] /\ email_shape (text d "email"))
  /\ (forall name email message : jsstring,
        trim name <> [] -> trim email <> [] -> trim message <> [] ->
        email_shape email ->
        validateForm (form name email message) = Normal []).
Proof.
  assert (E : forall n e m,
    Normal (name_errors n ++ email_errors e ++ message_errors m) = Normal []
    <-> trim n <> [] /\ trim m <> [] /\ trim e <> [] /\ email_shape e).
  { intros n e m. split.
    - intros [= H]. apply app_eq_nil in H as [Hn H].
      apply app_eq_nil in H as [He Hm].
      apply name_errors_nil in Hn. apply message_errors_nil in Hm.
      apply email_errors_nil in He as [? ?]. auto.
    - intros (Hn & Hm & He & Hs).
      apply name_errors_nil in Hn as ->. apply message_errors_nil in Hm as ->.
      rewrite (proj2 (email_errors_nil e)) by auto. reflexivity. }
  split.
  - intros d. rewrite validateForm_strings. apply E.
  - intros n e m Hn He Hm Hs. rewrite validateForm_form. apply E. auto.
Qed.

(** An instance of C2: the valid form of the test suite. *)
Lemma validateForm_empty_iff_all_pass_witness :
  validateForm (form (js "John Doe") (js "john@example.com")
                     (js "Test message")) = Normal [].
Proof.
  apply (proj2 validateForm_empty_iff_all_pass);
    [discriminate | discriminate | discriminate |].
  apply test_emailPattern. reflexivity.
Defined.

(** C3.  On the form with three empty fields [validateForm] returns the three
    "required" messages, in the order name, email, message. *)
Theorem validateForm_all_empty :
  validateForm (form (js "") (js "") (js ""))
  = Normal [js "Name is required."; js "Email is required.";
            js "Message is required."].
Proof. rewrite validateForm_form. reflexivity. Qed.

(** C4.  The list returned by [validateForm] is a subsequence of the name
    error, one of the two email errors, and the message error, in this
    order. *)
Theorem validateForm_errors_in_field_order (d : gmap string jsstring) :
  exists errors email_error,
    validateForm (Str <$> d) = Normal errors
    /\ (email_error = js "Email is required."
        \/ email_error = js "Please enter a valid email address.")
    /\ errors `sublist_of`
         [js "Name is required."; email_error; js "Message is required."].
Proof.
  rewrite validateForm_strings.
  assert (Hm : message_errors (text d "message")
               `sublist_of` [message_required]).
  { unfold message_errors. destruct (is_nil _); repeat constructor. }
  assert (Hn : forall rest full, rest `sublist_of` full ->
               (name_errors (text d "name") ++ rest)
               `sublist_of` (name_required :: full)).
  { intros rest full H. unfold name_errors. now apply field_errors_sublist. }
  destruct (email_errors_cases (text d "email"))
    as [[_ E] | [(_ & E & _) | (_ & E & _)]]; rewrite E.
  - exists (name_errors (text d "name") ++ [email_required]
            ++ message_errors (text d "message")), email_required.
    split; [reflexivity|]. split; [now left|].
    apply Hn. now apply sublist_skip.
  - exists (name_errors (text d "name") ++ [email_invalid]
            ++ message_errors (text d "message")), email_invalid.
    split; [reflexivity|]. split; [now right|].
    apply Hn. now apply sublist_skip.
  - exists (name_errors (text d "name") ++ []
            ++ message_errors (text d "message")), email_required.
    split; [reflexivity|]. split; [now left|].
    apply Hn. now apply sublist_cons.
Qed.

(** C5.  One call of [validateForm] never reports both "Email is required."
    and "Please enter a valid email address."; errors of different fields do
    occur together. *)
Theorem validateForm_email_errors_exclusive :
  (forall d : gmap string jsstring,
     exists errors,
       validateForm (Str <$> d) = Normal errors
       /\ ~ (js "Email is required." ∈ errors
             /\ js "Please enter a valid email address." ∈ errors))
  /\ (exists errors,
        validateForm (form (js "") (js "invalid-email") (js "")) = Normal errors
        /\ js "Name is required." ∈ errors
        /\ js "Please enter a valid email address." ∈ errors
        /\ js "Message is required." ∈ errors).
Proof.
  split.
  - intros d. rewrite validateForm_strings. eexists. split; [reflexivity|].
    destruct strings_distinct as (N1 & N2 & M1 & M2 & D).
    rewrite !elem_of_app. unfold name_errors, message_errors.
    intros [Hreq Hinv].
    assert (Hn : forall x (b : bool),
      x ∈ (if b then [name_required] else []) -> x = name_required).
    { intros x []; [intros ->%list_elem_of_singleton | intros ?%elem_of_nil];
        easy. }
    assert (Hm : forall x (b : bool),
      x ∈ (if b then [message_required] else []) -> x = message_required).
    { intros x []; [intros ->%list_elem_of_singleton | intros ?%elem_of_nil];
        easy. }
    destruct Hreq as [H | [Hreq | H]];
      [apply Hn in H; now apply N1 | | apply Hm in H; now apply M1].
    destruct Hinv as [H | [Hinv | H]];
      [apply Hn in H; now apply N2 | | apply Hm in H; now apply M2].
    destruct (email_errors_cases (text d "email"))
      as [[_ E] | [(_ & E & _) | (_ & E & _)]]; rewrite E in Hreq, Hinv.
    + apply list_elem_of_singleton in Hinv. now apply D.
    + apply list_elem_of_singleton in Hreq. now apply D.
    + now apply elem_of_nil in Hreq.
  - rewrite validateForm_form. eexists. split; [reflexivity|].
    vm_compute. repeat split; repeat constructor.
Qed.

(** C10.  On a mapping whose present values are strings, whichever of the
    keys are absent, [validateForm] completes normally; an absent field
    contributes its "... is required." message and is treated exactly like
    the same field holding the empty string. *)
Theorem validateForm_total_on_partial_input (d : gmap string jsstring) :
  exists errors,
    validateForm (Str <$> d) = Normal errors
    /\ (d !! "name" = None ->
        js "Name is required." ∈ errors
        /\ validateForm (Str <$> <["name" := js ""]> d) = Normal errors)
    /\ (d !! "email" = None ->
        js "Email is required." ∈ errors
        /\ validateForm (Str <$> <["email" := js ""]> d) = Normal errors)
    /\ (d !! "message" = None ->
        js "Message is required." ∈ errors
        /\ validateForm (Str <$> <["message" := js ""]> d) = Normal errors).
Proof.
  rewrite validateForm_strings. eexists. split; [reflexivity|].
  repeat split.
  - unfold text at 1. rewrite H. apply elem_of_app. left. constructor.
  - rewrite validateForm_strings. unfold text.
    rewrite lookup_insert_eq, !lookup_insert_ne, H by discriminate.
    reflexivity.
  - unfold text at 2. rewrite H. rewrite !elem_of_app. right. left.
    constructor.
  - rewrite validateForm_strings. unfold text.
    rewrite lookup_insert_eq, !lookup_insert_ne, H by discriminate.
    reflexivity.
  - unfold text at 3. rewrite H. rewrite !elem_of_app. right. right.
    constructor.
  - rewrite validateForm_strings. unfold text.
    rewrite lookup_insert_eq, !lookup_insert_ne, H by discriminate.
    reflexivity.
Qed.

(** An instance of C10: the mapping without any key. *)
Lemma validateForm_total_on_partial_input_witness :
  exists errors,
    validateForm ∅ = Normal errors
    /\ js "Name is required." ∈ errors
    /\ js "Email is required." ∈ errors
    /\ js "Message is required." ∈ errors.
Proof.
  destruct (validateForm_total_on_partial_input ∅)
    as (errors & E & Hn & He & Hm).
  exists errors. rewrite fmap_empty in E.
  split; [exact E|].
  split; [apply Hn, lookup_empty|].
  split; [apply He, lookup_empty | apply Hm, lookup_empty].
Defined.

(** ** validateField *)

Lemma required_message_nonempty field :
  label_text field ++ js " is required." <> [].
Proof. intros H. apply app_eq_nil in H as [_ H]. discriminate. Qed.

Lemma is_nil_required_message field :
  is_nil (label_text field ++ js " is required.") = false.
Proof. apply is_nil_false, required_message_nonempty. Qed.

(** The two error conditions of [validateField], as it computes them. *)
Lemma field_error_nil field :
  is_nil (field_error field)
  = negb ((required field && is_nil (trim (value field)))
          || (bool_decide (fieldType field = js "email")
              && negb (is_nil (trim (value field)))
              && negb (test emailPattern (trim (value field))))).
Proof.
  unfold field_error.
  destruct (required field), (is_nil (trim (value field))),
    (bool_decide (fieldType field = js "email")),
    (test emailPattern (trim (value field)));
    cbn [andb orb negb]; rewrite ?is_nil_required_message; reflexivity.
Qed.

Lemma validateField_result field ui :
  (validateField field ui).2 = is_nil (field_error field).
Proof. unfold validateField. now destruct (field_error field). Qed.

Lemma validateField_false_iff field ui :
  (validateField field ui).2 = false <->
  (required field = true /\ trim (value field) = [])
  \/ (fieldType field = js "email" /\ trim (value field) <> []
      /\ ~ email_shape (trim (value field))).
Proof.
  rewrite validateField_result, field_error_nil, negb_false_iff, orb_true_iff,
    !andb_true_iff, !negb_true_iff, bool_decide_eq_true, is_nil_true,
    is_nil_false, <- test_emailPattern, not_true_iff_false.
  tauto.
Qed.

(** C6.  [validateField] returns [false] exactly when the field is required
    and its trimmed value is empty, or it is an email field whose trimmed
    value is non-empty and does not match the email pattern, and [true]
    exactly when neither holds; so a required field with an empty trimmed
    value gives [false], and the same field holding a text that is non-empty
    after trimming (and, in an email field, matches the pattern) gives
    [true]. *)
Theorem validateField_true_iff_no_error (field : Field) (ui : FieldUI) :
  let required_empty :=
    required field = true /\ trim (value field) = [] in
  let email_malformed :=
    fieldType field = js "email" /\ trim (value field) <> []
    /\ ~ email_shape (trim (value field)) in
  ((validateField field ui).2 = false <-> required_empty \/ email_malformed)
  /\ ((validateField field ui).2 = true
      <-> ~ (required_empty \/ email_malformed))
  /\ (required_empty -> (validateField field ui).2 = false)
  /\ (forall text : jsstring,
        trim text <> [] ->
        (fieldType field = js "email" -> email_shape (trim text)) ->
        (validateField (with_value text field) ui).2 = true).
Proof.
  intros required_empty email_malformed.
  subst required_empty email_malformed.
  split; [apply validateField_false_iff|].
  split; [rewrite <- (validateField_false_iff field ui);
          symmetry; apply not_false_iff_true|].
  split; [intros H; apply validateField_false_iff; now left|].
  intros text Hne Hemail. apply not_false_iff_true.
  rewrite validateField_false_iff. simpl. intros [[_ H] | (H & _ & N)].
  - contradiction.
  - apply N, Hemail, H.
Qed.

(** An instance of C6: the name field of the test suite, empty and then
    holding a name. *)
Lemma validateField_true_iff_no_error_witness :
  let name_field :=
    {| value := js ""; type := js "text"; tagName := js "INPUT";
       required := true; labels := [js "Name"] |} in
  let ui := {| error_class := false; aria_invalid := None;
               error_message := None |} in
  (validateField name_field ui).2 = false
  /\ (validateField (with_value (js "John Doe") name_field) ui).2 = true.
Proof.
  intros name_field ui.
  destruct (validateField_true_iff_no_error name_field ui)
    as (_ & _ & Hempty & Hvalid).
  split.
  - apply Hempty. split; reflexivity.
  - apply Hvalid; [discriminate | intros H; discriminate H].
Defined.

(** ** throttle *)

Module ThrottleFacts.
Import Throttle.

Section Facts.
Context {A : Type}.
Variable func : A -> behaviour A.
Variable limit : N.
Implicit Types (w : world A) (a : A) (trace : list (event A)).

Lemma run_snoc trace e w :
  run func limit (trace ++ [e]) w
  = step func limit (run func limit trace w) e.
Proof. unfold run. now rewrite foldl_app. Qed.

Lemma run_app trace1 trace2 w :
  run func limit (trace1 ++ trace2) w
  = run func limit trace2 (run func limit trace1 w).
Proof. unfold run. now rewrite foldl_app. Qed.

(** A call while [inThrottle] is set changes nothing, whatever [func]
    does. *)
Lemma throttle_when_set a w :
  inThrottle w.2 = true -> throttle func limit a w = w.
Proof.
  intros Hf. unfold throttle, wrapped. now rewrite Hf.
Qed.

(** A call while [inThrottle] is not set enters [func]. *)
Lemma throttle_when_unset a w :
  inThrottle w.2 = false ->
  throttle func limit a w
  = let applied := apply limit (func a) (logged a w) in
    match applied.2 with
    | Returned => shut limit applied.1
    | Threw => applied.1
    end.
Proof.
  intros Hf. unfold throttle, wrapped. rewrite Hf. simpl.
  now destruct (apply limit (func a) (logged a w)).2.
Qed.

Lemma throttle_when_open a w :
  window_open limit w -> throttle func limit a w = w.
Proof. intros [Hf _]. now apply throttle_when_set. Qed.

Lemma elapse_when_closed dt w :
  window_closed limit w ->
  elapse run_callback dt w = (Host (clock w.1 + dt) (next_handle w.1) [], w.2).
Proof.
  destruct w as [[c n q] s]. intros (_ & Hq & _). simpl in *. subst.
  reflexivity.
Qed.

(** Time that does not reach the end of the window leaves it open. *)
Lemma elapse_within_window dt w t a :
  window_open limit w -> last (invoked w.2) = Some (t, a) ->
  clock w.1 + dt < t + limit ->
  elapse run_callback dt w
  = (Host (clock w.1 + dt) (next_handle w.1) (queue w.1), w.2).
Proof.
  destruct w as [[c n q] [f log]].
  intros (_ & t' & a' & id & Hlast & Hq & _) Hlast' Hlt. simpl in *.
  rewrite Hlast in Hlast'. injection Hlast' as -> ->. subst q.
  unfold elapse. simpl.
  destruct (N.leb_spec (t + limit) (c + dt)); [lia | reflexivity].
Qed.

(** Time that reaches the end of the window runs the timer, which closes
    it. *)
Lemma elapse_past_window dt w t a :
  window_open limit w -> last (invoked w.2) = Some (t, a) ->
  t + limit <= clock w.1 + dt ->
  elapse run_callback dt w
  = (Host (clock w.1 + dt) (next_handle w.1) [], Closure false (invoked w.2)).
Proof.
  destruct w as [[c n q] [f log]].
  intros (_ & t' & a' & id & Hlast & Hq & _) Hlast' Hle. simpl in *.
  rewrite Hlast in Hlast'. injection Hlast' as -> ->. subst q.
  unfold elapse. simpl.
  destruct (N.leb_spec (t + limit) (c + dt)); [reflexivity | lia].
Qed.

Lemma throttle_consistent_init : consistent limit (init : world A).
Proof. right. repeat split. intros t a. discriminate. Qed.

(** From here on [func] returns normally and does not itself call the
    wrapped function. *)
Hypothesis func_returns : forall a, func a = Returns.

(** A call while the window is closed invokes [func] once, now, and opens
    the window. *)
Lemma throttle_when_closed a w :
  window_closed limit w ->
  throttle func limit a w
  = (Host (clock w.1) (N.succ (next_handle w.1))
          [Timer (next_handle w.1) (clock w.1 + limit) Reopen],
     Closure true (invoked w.2 ++ [(clock w.1, a)])).
Proof.
  destruct w as [[c n q] [f log]]. intros (Hf & Hq & _). simpl in *.
  subst. rewrite throttle_when_unset by reflexivity.
  rewrite func_returns. reflexivity.
Qed.

Lemma open_after_call a w :
  window_closed limit w -> window_open limit (throttle func limit a w).
Proof.
  intros H. rewrite throttle_when_closed by assumption.
  split; [reflexivity|]. exists (clock w.1), a, (next_handle w.1). simpl.
  rewrite last_snoc. repeat split; lia.
Qed.

Lemma throttle_consistent_step w e :
  consistent limit w -> consistent limit (step func limit w e).
Proof.
  intros [Ho | Hc]; destruct e as [a | dt]; simpl.
  - rewrite throttle_when_open by assumption. now left.
  - pose proof Ho as (Hf & t & a & id & Hlast & Hq & Hle).
    destruct (N.le_gt_cases (t + limit) (clock w.1 + dt)) as [H | H].
    + rewrite (elapse_past_window dt w t a) by assumption.
      right. repeat split. simpl. intros t' a' Hl.
      rewrite Hlast in Hl. injection Hl as <- <-. assumption.
    + rewrite (elapse_within_window dt w t a) by assumption.
      left. split; [assumption|]. exists t, a, id. simpl.
      repeat split; try assumption; lia.
  - left. now apply open_after_call.
  - rewrite elapse_when_closed by assumption.
    destruct Hc as (Hf & Hq & Hpast).
    right. repeat split; try assumption. simpl. intros t a Hl.
    apply Hpast in Hl. lia.
Qed.

Lemma throttle_consistent_run trace :
  consistent limit (run func limit trace init).
Proof.
  induction trace as [|e trace IH] using rev_ind.
  - apply throttle_consistent_init.
  - rewrite run_snoc. now apply throttle_consistent_step.
Qed.

(** Whatever was going on, after [limit] or more has passed the window is
    closed. *)
Lemma closed_after_limit dt w :
  consistent limit w -> limit <= dt ->
  window_closed limit (elapse run_callback dt w)
  /\ invoked (elapse run_callback dt w).2 = invoked w.2
  /\ clock (elapse run_callback dt w).1 = clock w.1 + dt.
Proof.
  intros [Ho | Hc] Hdt.
  - pose proof Ho as (Hf & t & a & id & Hlast & Hq & Hle).
    rewrite (elapse_past_window dt w t a) by (assumption || lia).
    repeat split. simpl. intros t' a' Hl.
    rewrite Hlast in Hl. injection Hl as <- <-. lia.
  - rewrite elapse_when_closed by assumption.
    destruct Hc as (Hf & Hq & Hpast).
    repeat split; try assumption. simpl. intros t a Hl.
    apply Hpast in Hl. lia.
Qed.

(** Calls that follow a call without a pause are dropped. *)
Lemma run_calls_when_open (others : list A) w :
  window_open limit w -> run func limit (map Call others) w = w.
Proof.
  intros Ho. induction others as [|b others IH]; [reflexivity|].
  unfold run in *. simpl. now rewrite throttle_when_open.
Qed.

Lemma run_calls_when_closed a (others : list A) w :
  window_closed limit w ->
  run func limit (map Call (a :: others)) w = throttle func limit a w.
Proof.
  intros Hc. change (run func limit (map Call (a :: others)) w)
    with (run func limit (map Call others) (throttle func limit a w)).
  apply run_calls_when_open, open_after_call, Hc.
Qed.

(** C7, for a [func] that returns normally and does not itself call the
    wrapped function.  In any state a run of events leads to: a call that is
    the first ever, or arrives when more than [limit] has passed since [func]
    last ran, or follows a pause of at least [limit], invokes [func] exactly
    once, at that moment, with what the call passed; a call less than [limit]
    after [func] last ran changes nothing at all (no invocation, no timer).
    Hence one or more calls in a row invoke [func] once, and a further call
    after a pause of at least [limit] invokes it a second time. *)
Theorem throttle_leading_call_then_drop trace a :
  let w := run func limit trace init in
  ((last (invoked w.2) = None
    \/ exists t b, last (invoked w.2) = Some (t, b) /\ t + limit < clock w.1) ->
   invoked (throttle func limit a w).2 = invoked w.2 ++ [(clock w.1, a)])
  /\ (forall dt, limit <= dt ->
      invoked (run func limit [Elapse dt; Call a] w).2
      = invoked w.2 ++ [(clock w.1 + dt, a)])
  /\ (forall t b, last (invoked w.2) = Some (t, b) -> clock w.1 < t + limit ->
      throttle func limit a w = w)
  /\ (forall others,
      invoked (run func limit (map Call (a :: others)) init).2 = [(0, a)])
  /\ (forall others dt b, limit <= dt ->
      invoked (run func limit (map Call (a :: others) ++ [Elapse dt; Call b])
                   init).2
      = [(0, a); (dt, b)]).
Proof.
  intros w. pose proof (throttle_consistent_run trace) as Hw. fold w in Hw.
  assert (Hfirst : forall others,
    run func limit (map Call (a :: others)) init = throttle func limit a init).
  { intros others. apply run_calls_when_closed.
    destruct (throttle_consistent_init) as [[H _] | H]; [discriminate H | exact H]. }
  assert (Hinit : window_closed limit (init : world A)).
  { destruct (throttle_consistent_init) as [[H _] | H]; [discriminate H | exact H]. }
  repeat split.
  - intros Hlast. destruct Hw as [Ho | Hc].
    + destruct Ho as (_ & t & b & id & Hl & _ & Hle).
      destruct Hlast as [Hn | (t' & b' & Hl' & Hlt)]; [congruence|].
      rewrite Hl in Hl'. injection Hl' as <- <-. lia.
    + now rewrite throttle_when_closed.
  - intros dt Hdt.
    destruct (closed_after_limit dt w Hw Hdt) as (Hc & Hlog & Hclock).
    change (run func limit [Elapse dt; Call a] w)
      with (throttle func limit a (elapse run_callback dt w)).
    remember (elapse run_callback dt w) as w' eqn:Ew'.
    rewrite throttle_when_closed by assumption. simpl.
    now rewrite Hlog, Hclock.
  - intros t b Hl Hlt. destruct Hw as [Ho | Hc].
    + now apply throttle_when_open.
    + destruct Hc as (_ & _ & Hpast). apply Hpast in Hl. lia.
  - intros others. rewrite Hfirst, throttle_when_closed by assumption.
    reflexivity.
  - intros others dt b Hdt. rewrite run_app, Hfirst.
    assert (Hc1 : consistent limit (throttle func limit a init)).
    { left. now apply open_after_call. }
    destruct (closed_after_limit dt _ Hc1 Hdt) as (Hc & Hlog & Hclock).
    change (run func limit [Elapse dt; Call b] (throttle func limit a init))
      with (throttle func limit b
              (elapse run_callback dt (throttle func limit a init))).
    remember (elapse run_callback dt (throttle func limit a init)) as w' eqn:Ew'.
    rewrite throttle_when_closed by assumption. simpl.
    rewrite Hlog, Hclock, throttle_when_closed by assumption. reflexivity.
Qed.

End Facts.

(** An instance of C7: [throttle(fn, 100)] with an [fn] that only returns,
    called three times in a row, and once more 150 ms later. *)
Lemma throttle_leading_call_then_drop_witness :
  let fn := fun _ : N => Returns in
  invoked (run fn 100 (map Call [1; 2; 3]) init).2 = [(0, 1)]
  /\ invoked (run fn 100 (map Call [1; 2; 3] ++ [Elapse 150; Call 4]) init).2
     = [(0, 1); (150, 4)].
Proof.
  intros fn.
  destruct (throttle_leading_call_then_drop fn 100 (fun _ => eq_refl) [] 1)
    as (_ & _ & _ & Hrow & Hagain).
  split; [apply (Hrow [2; 3]) | apply (Hagain [2; 3] 150 4); lia].
Defined.

(** C7 without that condition does not hold.  [func.apply] comes before
    [inThrottle = true]: an [fn] that throws leaves the flag unset, so the
    second of two calls in a row invokes it again; and an [fn] that, called
    with 1, calls the wrapped function with 2 gets through to [fn] a second
    time, so that one call from outside invokes [fn] twice. *)
Lemma throttle_window_needs_return :
  invoked (run (fun _ : N => Throws) 100 (map Call [1; 2]) init).2
  = [(0, 1); (0, 2)]
  /\ invoked (run (fun a : N =>
                     if a =? 1 then Calls 2 Returns (fun _ => Returns)
                     else Returns)
                  100 [Call 1] init).2
     = [(0, 1); (0, 2)].
Proof. split; reflexivity. Qed.

End ThrottleFacts.

(** ** debounce *)

Module DebounceFacts.
Import Debounce.

Section Facts.
Context {A : Type}.
Variable wait : N.
Variable immediate : bool.
Implicit Types (w : world A) (a : A) (trace : list (event A)).

Lemma debounce_run_app trace1 trace2 w :
  run wait immediate (trace1 ++ trace2) w
  = run wait immediate trace2 (run wait immediate trace1 w).
Proof. unfold run. now rewrite foldl_app. Qed.

Lemma burst_snoc first rest (g : N) (b : A) :
  burst first (rest ++ [(g, b)]) = burst first rest ++ [Elapse g; Call b].
Proof.
  unfold burst. simpl. f_equal.
  induction rest as [|c rest IH]; simpl; [reflexivity | now rewrite IH].
Qed.

Lemma pauses_snoc (rest : list (N * A)) g b :
  pauses (rest ++ [(g, b)]) = pauses rest + g.
Proof.
  induction rest as [|c rest IH]; simpl; [lia | rewrite IH; lia].
Qed.

Lemma last_call_snoc first (rest : list (N * A)) g b :
  last_call first (rest ++ [(g, b)]) = b.
Proof. unfold last_call. now rewrite last_snoc. Qed.

Lemma debounce_when_idle a w :
  idle w ->
  debounce wait immediate a w
  = rearmed wait a w (if immediate then invoked w.2 ++ [(clock w.1, a)]
                      else invoked w.2).
Proof.
  destruct w as [[c n q] [tv log]]. intros [Hq Hp]. simpl in *. subst q.
  unfold debounce, rearmed. simpl. rewrite Hp, andb_true_r.
  destruct tv; reflexivity.
Qed.

Lemma debounce_when_armed a w id at_ b :
  armed w id at_ b ->
  debounce wait immediate a w = rearmed wait a w (invoked w.2).
Proof.
  destruct w as [[c n q] [tv log]]. intros (Ht & Hid & Hq). simpl in *.
  subst q tv. unfold debounce, rearmed. simpl.
  apply N.eqb_neq in Hid as Hz. rewrite Hz, andb_false_r.
  unfold clearTimeout. simpl. rewrite filter_cons_False by (simpl; tauto).
  reflexivity.
Qed.

Lemma elapse_when_idle dt w :
  idle w ->
  elapse (run_callback immediate) dt w
  = (Host (clock w.1 + dt) (next_handle w.1) [], w.2).
Proof.
  destruct w as [[c n q] s]. intros [Hq _]. simpl in *. subst q. reflexivity.
Qed.

(** A pause that ends before the timer is due leaves it pending. *)
Lemma elapse_before_due dt w id at_ a :
  armed w id at_ a -> clock w.1 + dt < at_ ->
  elapse (run_callback immediate) dt w
  = (Host (clock w.1 + dt) (next_handle w.1) (queue w.1), w.2).
Proof.
  destruct w as [[c n q] s]. intros (_ & _ & Hq) Hlt. simpl in *. subst q.
  unfold elapse. simpl.
  destruct (N.leb_spec at_ (c + dt)); [lia | reflexivity].
Qed.

(** A pause that reaches the due time runs [later]. *)
Lemma elapse_past_due dt w id at_ a :
  armed w id at_ a -> at_ <= clock w.1 + dt ->
  elapse (run_callback immediate) dt w
  = (Host (clock w.1 + dt) (next_handle w.1) [],
     Closure Nulled (if negb immediate then invoked w.2 ++ [(at_, a)]
                     else invoked w.2)).
Proof.
  destruct w as [[c n q] s]. intros (_ & _ & Hq) Hle. simpl in *. subst q.
  unfold elapse. simpl.
  destruct (N.leb_spec at_ (c + dt)); [reflexivity | lia].
Qed.

Lemma armed_rearmed a w log :
  next_handle w.1 <> 0 ->
  armed (rearmed wait a w log) (next_handle w.1) (clock w.1 + wait) a.
Proof. intros H. repeat split. exact H. Qed.

(** After a call a timer for that call is pending, whatever the state. *)
Lemma debounce_rearms a w :
  consistent w ->
  exists log, debounce wait immediate a w = rearmed wait a w log
    /\ log = if immediate && negb (pending (timeout w.2))
             then invoked w.2 ++ [(clock w.1, a)] else invoked w.2.
Proof.
  intros (_ & [Hi | (id & at_ & b & Ha)]).
  - rewrite debounce_when_idle by assumption. eexists. split; [reflexivity|].
    destruct Hi as [_ ->]. now rewrite andb_true_r.
  - rewrite (debounce_when_armed a w id at_ b) by assumption.
    eexists. split; [reflexivity|].
    destruct Ha as (-> & Hid & _). simpl.
    apply N.eqb_neq in Hid as ->. now rewrite andb_false_r.
Qed.

Lemma consistent_init : consistent (init : world A).
Proof. split; [discriminate|]. left. split; reflexivity. Qed.

Lemma consistent_rearmed a w log :
  next_handle w.1 <> 0 -> consistent (rearmed wait a w log).
Proof.
  intros H. split; [apply N.neq_succ_0|].
  right. exists (next_handle w.1), (clock w.1 + wait), a.
  now apply armed_rearmed.
Qed.

Lemma consistent_step w e :
  consistent w -> consistent (step wait immediate w e).
Proof.
  intros Hw. pose proof Hw as (Hn & [Hi | (id & at_ & b & Ha)]);
    destruct e as [a | dt]; simpl.
  - destruct (debounce_rearms a w Hw) as (log & -> & _).
    now apply consistent_rearmed.
  - rewrite elapse_when_idle by assumption.
    split; [assumption|]. left. split; [reflexivity | apply Hi].
  - destruct (debounce_rearms a w Hw) as (log & -> & _).
    now apply consistent_rearmed.
  - destruct (N.le_gt_cases at_ (clock w.1 + dt)) as [H | H].
    + rewrite (elapse_past_due dt w id at_ b) by assumption.
      split; [assumption|]. left. split; reflexivity.
    + rewrite (elapse_before_due dt w id at_ b) by assumption.
      split; [assumption|]. right. exists id, at_, b. exact Ha.
Qed.

Lemma consistent_run trace :
  consistent (run wait immediate trace init).
Proof.
  induction trace as [|e trace IH] using rev_ind.
  - apply consistent_init.
  - rewrite debounce_run_app. now apply consistent_step.
Qed.

(** The state at the end of a burst whose pauses are all shorter than
    [wait]: the timer of the last call is pending, due [wait] after that
    call, and nothing was invoked after the first call returned. *)
Lemma burst_end first rest w :
  consistent w -> Forall (fun c => c.1 < wait) rest ->
  exists w1 log,
    run wait immediate (burst first rest) w = rearmed wait (last_call first rest) w1 log
    /\ log = invoked (debounce wait immediate first w).2
    /\ clock w1.1 = clock w.1 + pauses rest
    /\ next_handle w1.1 <> 0.
Proof.
  intros Hw. induction rest as [|[g b] rest IH] using rev_ind; intros Hrest.
  - destruct (debounce_rearms first w Hw) as (log & E & _).
    exists w, log. change (run wait immediate (burst first []) w)
      with (debounce wait immediate first w).
    rewrite E. repeat split; [simpl; lia | apply Hw].
  - apply Forall_app in Hrest as [Hrest Hg].
    rewrite Forall_singleton in Hg. simpl in Hg.
    destruct (IH Hrest) as (w1 & log & E & Hlog & Hclock & Hnext).
    rewrite burst_snoc, debounce_run_app, E, last_call_snoc, pauses_snoc.
    change (run wait immediate [Elapse g; Call b] (rearmed wait (last_call first rest) w1 log))
      with (debounce wait immediate b
              (elapse (run_callback immediate) g
                 (rearmed wait (last_call first rest) w1 log))).
    pose proof (armed_rearmed (last_call first rest) w1 log Hnext) as Ha.
    rewrite (elapse_before_due g _ _ _ _ Ha) by (simpl; lia).
    match goal with |- exists _ _, debounce _ _ _ ?w2 = _ /\ _ =>
      assert (Ha2 : armed w2 (next_handle w1.1) (clock w1.1 + wait)
                      (last_call first rest)) by (repeat split; exact Hnext);
      rewrite (debounce_when_armed b w2 _ _ _ Ha2); exists w2, log
    end.
    repeat split; [assumption | simpl; lia | simpl; apply N.neq_succ_0].
Qed.

End Facts.

Section Claims.
Context {A : Type}.
Variable wait : N.
Implicit Types (first : A) (rest : list (N * A)) (trace : list (event A)).

(** C8.  With [immediate] unset, take any state a run of events leads to and
    a burst of calls whose pauses are all shorter than [wait].  During the
    burst [func] is not invoked; at its end the one pending timer is that of
    the last call, due [wait] after it (every earlier one was cancelled); a
    pause shorter than [wait] still invokes nothing, and a pause of [wait] or
    more invokes [func] exactly once, [wait] after the last call and with
    what the last call passed. *)
Theorem debounce_fires_once_after_last_call trace first rest :
  let w := run wait false trace init in
  Forall (fun c => c.1 < wait) rest ->
  let w' := run wait false (burst first rest) w in
  invoked w'.2 = invoked w.2
  /\ clock w'.1 = clock w.1 + pauses rest
  /\ (exists id,
        queue w'.1 = [Timer id (clock w'.1 + wait) (Later (last_call first rest))])
  /\ (forall dt, dt < wait ->
      invoked (run wait false [Elapse dt] w').2 = invoked w.2)
  /\ (forall dt, wait <= dt ->
      invoked (run wait false [Elapse dt] w').2
      = invoked w.2 ++ [(clock w'.1 + wait, last_call first rest)])
  /\ (forall dt dt', wait <= dt ->
      invoked (run wait false [Elapse dt; Elapse dt'] w').2
      = invoked w.2 ++ [(clock w'.1 + wait, last_call first rest)]).
Proof.
  intros w Hrest w'.
  pose proof (consistent_run wait false trace) as Hw. fold w in Hw.
  destruct (burst_end wait false first rest w Hw Hrest)
    as (w1 & log & E & Hlog & Hclock & Hnext).
  destruct (debounce_rearms wait false first w Hw) as (log' & E' & Hlog').
  rewrite E' in Hlog. simpl in Hlog, Hlog'. subst log' log.
  pose proof (armed_rearmed wait (last_call first rest) w1 (invoked w.2) Hnext)
    as Ha.
  subst w'. rewrite E in *. clear E.
  set (w' := rearmed wait (last_call first rest) w1 (invoked w.2)) in *.
  assert (Hc : clock w'.1 = clock w1.1) by reflexivity.
  split; [reflexivity|]. split; [now rewrite Hc|].
  split; [eexists; rewrite Hc; reflexivity|].
  split; [|split].
  - intros dt Hdt.
    change (run wait false [Elapse dt] w') with (elapse (run_callback false) dt w').
    rewrite (elapse_before_due false dt _ _ _ _ Ha) by lia. reflexivity.
  - intros dt Hdt.
    change (run wait false [Elapse dt] w') with (elapse (run_callback false) dt w').
    rewrite (elapse_past_due false dt _ _ _ _ Ha) by lia.
    reflexivity.
  - intros dt dt' Hdt.
    change (run wait false [Elapse dt; Elapse dt'] w')
      with (elapse (run_callback false) dt'
              (elapse (run_callback false) dt w')).
    rewrite (elapse_past_due false dt _ _ _ _ Ha) by lia.
    rewrite elapse_when_idle by (split; reflexivity).
    reflexivity.
Qed.

(** C9.  With [immediate] set, take any state a run of events leads to in
    which no timer is pending, and a burst of calls whose pauses are all
    shorter than [wait].  The first call invokes [func] at once, with what it
    passed; the other calls of the burst invoke nothing; and no invocation
    follows the burst, however long the pause after it. *)
Theorem debounce_immediate_fires_on_first_call trace first rest :
  let w := run wait true trace init in
  queue w.1 = [] ->
  Forall (fun c => c.1 < wait) rest ->
  invoked (debounce wait true first w).2 = invoked w.2 ++ [(clock w.1, first)]
  /\ invoked (run wait true (burst first rest) w).2
     = invoked w.2 ++ [(clock w.1, first)]
  /\ (forall dt,
      invoked (run wait true (burst first rest ++ [Elapse dt]) w).2
      = invoked w.2 ++ [(clock w.1, first)]).
Proof.
  intros w Hq Hrest.
  pose proof (consistent_run wait true trace) as Hw. fold w in Hw.
  assert (Hi : idle w).
  { destruct Hw as (_ & [Hi | (id & at_ & b & _ & _ & Hq')]); [exact Hi|].
    rewrite Hq in Hq'. discriminate. }
  assert (Hfirst : invoked (debounce wait true first w).2
                   = invoked w.2 ++ [(clock w.1, first)]).
  { now rewrite debounce_when_idle. }
  destruct (burst_end wait true first rest w Hw Hrest)
    as (w1 & log & E & Hlog & Hclock & Hnext).
  rewrite Hfirst in Hlog. subst log.
  split; [exact Hfirst|]. split; [now rewrite E|].
  intros dt. rewrite debounce_run_app, E.
  pose proof (armed_rearmed wait (last_call first rest) w1
                (invoked w.2 ++ [(clock w.1, first)]) Hnext) as Ha.
  set (w' := rearmed wait (last_call first rest) w1 _) in *.
  change (run wait true [Elapse dt] w') with (elapse (run_callback true) dt w').
  destruct (N.le_gt_cases (clock w1.1 + wait) (clock w'.1 + dt)) as [H | H].
  - now rewrite (elapse_past_due true dt _ _ _ _ Ha).
  - now rewrite (elapse_before_due true dt _ _ _ _ Ha).
Qed.

End Claims.

(** An instance of C8: [debounce(fn, 100)] called three times in a row, then
    150 ms of quiet. *)
Lemma debounce_fires_once_after_last_call_witness :
  invoked (run 100 false (burst 1 [(0, 2); (0, 3)]) init).2 = []
  /\ invoked (run 100 false [Elapse 150]
                (run 100 false (burst 1 [(0, 2); (0, 3)]) init)).2
     = [(100, 3)].
Proof.
  assert (Hrest : Forall (fun c : N * N => c.1 < 100) [(0, 2); (0, 3)]).
  { repeat constructor. }
  destruct (debounce_fires_once_after_last_call 100 [] 1 [(0, 2); (0, 3)] Hrest)
    as (Hnone & _ & _ & _ & Hlate & _).
  split; [exact Hnone | apply (Hlate 150); lia].
Defined.

(** An instance of C9: [debounce(fn, 100, true)] called three times in a
    row, then 150 ms of quiet. *)
Lemma debounce_immediate_fires_on_first_call_witness :
  invoked (run 100 true (burst 1 [(0, 2); (0, 3)] ++ [Elapse 150]) init).2
  = [(0, 1)].
Proof.
  assert (Hrest : Forall (fun c : N * N => c.1 < 100) [(0, 2); (0, 3)]).
  { repeat constructor. }
  destruct (debounce_immediate_fires_on_first_call 100 [] 1 [(0, 2); (0, 3)]
              eq_refl Hrest) as (_ & _ & Hquiet).
  apply (Hquiet 150).
Defined.

End DebounceFacts.

(** * Further properties *)

(** ** White space and [trim] *)

Lemma trimStart_nil s :
  trimStart s = [] <-> Forall (fun c => is_space c = true) s.
Proof.
  induction s as [|c s IH]; simpl.
  - split; [constructor | reflexivity].
  - destruct (is_space c) eqn:E.
    + rewrite IH. split; [now constructor | now inversion 1].
    + split; [discriminate | inversion 1; congruence].
Qed.

Lemma trimStart_head s :
  trimStart s = [] \/ exists c r, trimStart s = c :: r /\ is_space c = false.
Proof.
  induction s as [|c s IH]; simpl; [now left|].
  destruct (is_space c) eqn:E; [exact IH | right; eauto].
Qed.

Lemma trimEnd_head c r : is_space c = false -> trimEnd (c :: r) <> [].
Proof. intros H. simpl. rewrite H, andb_false_r. discriminate. Qed.

(** The trimmed text is empty exactly when the text is white space only. *)
Lemma trim_nil_iff s :
  trim s = [] <-> Forall (fun c => is_space c = true) s.
Proof.
  rewrite <- trimStart_nil. unfold trim.
  destruct (trimStart_head s) as [-> | (c & r & -> & Hc)]; [easy|].
  split; [|discriminate]. intros H. now apply trimEnd_head in H.
Qed.

(** ** Which field an error of [validateForm] belongs to *)

Lemma required_strings_distinct :
  name_required <> message_required /\ email_required <> name_required
  /\ email_required <> message_required /\ email_invalid <> name_required
  /\ email_invalid <> message_required.
Proof. repeat split; discriminate. Qed.

Lemma elem_of_name_errors x n : x ∈ name_errors n -> x = name_required.
Proof.
  unfold name_errors. destruct (is_nil _); [|now intros ?%elem_of_nil].
  now intros ?%list_elem_of_singleton.
Qed.

Lemma elem_of_message_errors x m :
  x ∈ message_errors m -> x = message_required.
Proof.
  unfold message_errors. destruct (is_nil _); [|now intros ?%elem_of_nil].
  now intros ?%list_elem_of_singleton.
Qed.

Lemma elem_of_email_errors x e :
  x ∈ email_errors e -> x = email_required \/ x = email_invalid.
Proof.
  destruct (email_errors_cases e) as [[_ ->] | [(_ & -> & _) | (_ & -> & _)]].
  - intros ?%list_elem_of_singleton. now left.
  - intros ?%list_elem_of_singleton. now right.
  - now intros ?%elem_of_nil.
Qed.

Lemma name_required_reported n e m :
  name_required ∈ name_errors n ++ email_errors e ++ message_errors m
  <-> trim n = [].
Proof.
  destruct strings_distinct as (N1 & N2 & _).
  destruct required_strings_distinct as (N3 & _).
  rewrite !elem_of_app. split.
  - intros [H | [H | H]].
    + unfold name_errors in H. destruct (trim n); [reflexivity|].
      now apply elem_of_nil in H.
    + apply elem_of_email_errors in H as [H | H]; congruence.
    + apply elem_of_message_errors in H. congruence.
  - intros H. left. unfold name_errors. rewrite H. constructor.
Qed.

Lemma message_required_reported n e m :
  message_required ∈ name_errors n ++ email_errors e ++ message_errors m
  <-> trim m = [].
Proof.
  destruct strings_distinct as (_ & _ & M1 & M2 & _).
  destruct required_strings_distinct as (N3 & _).
  rewrite !elem_of_app. split.
  - intros [H | [H | H]].
    + apply elem_of_name_errors in H. congruence.
    + apply elem_of_email_errors in H as [H | H]; congruence.
    + unfold message_errors in H. destruct (trim m); [reflexivity|].
      now apply elem_of_nil in H.
  - intros H. right. right. unfold message_errors. rewrite H. constructor.
Qed.

Lemma email_required_reported n e m :
  email_required ∈ name_errors n ++ email_errors e ++ message_errors m
  <-> trim e = [].
Proof.
  destruct strings_distinct as (_ & _ & _ & _ & D).
  destruct required_strings_distinct as (_ & E1 & E2 & _).
  rewrite !elem_of_app. split.
  - intros [H | [H | H]].
    + apply elem_of_name_errors in H. congruence.
    + destruct (email_errors_cases e)
        as [[He _] | [(_ & E & _) | (_ & E & _)]]; [exact He | |];
        rewrite E in H.
      * apply list_elem_of_singleton in H. congruence.
      * now apply elem_of_nil in H.
    + apply elem_of_message_errors in H. congruence.
  - intros H. right. left. unfold email_errors. rewrite H. constructor.
Qed.

Lemma email_invalid_reported n e m :
  email_invalid ∈ name_errors n ++ email_errors e ++ message_errors m
  <-> trim e <> [] /\ test emailPattern e = false.
Proof.
  destruct strings_distinct as (_ & _ & _ & _ & D).
  destruct required_strings_distinct as (_ & _ & _ & I1 & I2).
  rewrite !elem_of_app. split.
  - intros [H | [H | H]].
    + apply elem_of_name_errors in H. congruence.
    + destruct (email_errors_cases e)
        as [[_ E] | [(He & E & Ht) | (_ & E & _)]]; rewrite E in H.
      * apply list_elem_of_singleton in H. congruence.
      * auto.
      * now apply elem_of_nil in H.
    + apply elem_of_message_errors in H. congruence.
  - intros [He Ht]. right. left. unfold email_errors.
    apply is_nil_false in He. rewrite He, Ht. constructor.
Qed.

(** ** More on validateForm *)

Lemma get_insert data key v key' :
  get (<[key := v]> data) key' = if decide (key = key') then v else get data key'.
Proof. unfold get. rewrite lookup_insert. now destruct (decide (key = key')). Qed.

Lemma get_delete data key key' :
  get (delete key data) key'
  = if decide (key = key') then Undefined else get data key'.
Proof. unfold get. rewrite lookup_delete. now destruct (decide (key = key')). Qed.

(** [validateForm] reads the three fields only, through [trim] and, for an
    email whose trimmed value is truthy, through ToString. *)
Lemma validateForm_same_fields data data' :
  (forall key, optional_trim (get data key) = optional_trim (get data' key)) ->
  (forall result,
     optional_trim (get data "email") = Normal result ->
     truthy result = true ->
     toString (get data "email") = toString (get data' "email")) ->
  validateForm data = validateForm data'.
Proof.
  intros H He. unfold validateForm. rewrite <- !H.
  destruct (optional_trim (get data "name")) as [n|]; simpl;
    [|reflexivity].
  destruct (optional_trim (get data "email")) as [e|] eqn:E; simpl;
    [|reflexivity].
  destruct (truthy e) eqn:T; simpl; [|reflexivity].
  now rewrite (He e eq_refl T).
Qed.

Lemma validateForm_absent_like v data key :
  optional_trim v = Normal Undefined ->
  validateForm (<[key := v]> data) = validateForm (delete key data).
Proof.
  intros Hv. apply validateForm_same_fields.
  - intros key'. rewrite get_insert, get_delete.
    destruct (decide (key = key')); [exact Hv | reflexivity].
  - intros result. rewrite get_insert, get_delete.
    destruct (decide (key = "email")); [|reflexivity].
    rewrite Hv. intros [= <-]. discriminate.
Qed.

Lemma optional_trim_normal v :
  trimmable v <-> exists result, optional_trim v = Normal result.
Proof.
  destruct v as [| |s|truth [[result|e]|] repr]; simpl;
    (split; [intros H; try contradiction; eauto | intros [r H]; now try discriminate H]).
Qed.

Lemma optional_trim_truthy v result :
  optional_trim v = Normal result -> truthy result = trims_truthy v.
Proof.
  destruct v as [| |s|truth [[r|e]|] repr]; simpl; intros [= <-]; reflexivity.
Qed.

Lemma toString_normal v : printable v <-> exists s, toString v = Normal s.
Proof.
  destruct v as [| |s|truth method [s|e]]; simpl;
    (split; [intros H; try contradiction; eauto | intros [r H]; now try discriminate H]).
Qed.

(** When [validateForm] completes normally. *)
Lemma validateForm_normal_iff data :
  (exists errors, validateForm data = Normal errors) <->
  trimmable (get data "name") /\ trimmable (get data "email")
  /\ (trims_truthy (get data "email") = true -> printable (get data "email"))
  /\ trimmable (get data "message").
Proof.
  rewrite !optional_trim_normal, toString_normal. unfold validateForm.
  destruct (optional_trim (get data "name")) as [n|] eqn:En; simpl.
  2: { split; [intros [? H]; discriminate H | intros [[? H] _]; discriminate H]. }
  destruct (optional_trim (get data "email")) as [e|] eqn:Ee; simpl.
  2: { split; [intros [? H]; discriminate H
              | intros (_ & [? H] & _); discriminate H]. }
  rewrite <- (optional_trim_truthy _ _ Ee).
  destruct (truthy e); simpl.
  - destruct (toString (get data "email")) as [s|] eqn:Es; simpl.
    2: { split; [intros [? H]; discriminate H|].
         intros (_ & _ & H & _). destruct (H eq_refl) as [? H']. discriminate H'. }
    destruct (optional_trim (get data "message")) as [m|] eqn:Em; simpl.
    + split; [|eauto]. intros _. eauto 10.
    + split; [intros [? H]; discriminate H
             | intros (_ & _ & _ & [? H]); discriminate H].
  - destruct (optional_trim (get data "message")) as [m|] eqn:Em; simpl.
    + split; [|eauto]. intros _.
      split; [eauto|]. split; [eauto|]. split; [discriminate | eauto].
    + split; [intros [? H]; discriminate H
             | intros (_ & _ & _ & [? H]); discriminate H].
Qed.

(** X1.  [validateForm] returns a list exactly when each of the three
    fields is [undefined], [null], a string or a value whose own [trim]
    method returns, and the email, if its trimmed value is truthy, converts
    to a string; otherwise it throws.  When no field has a [trim] method of
    its own, it throws exactly when one of the three fields holds a value
    without a callable [trim] (a number, a boolean, a File), and what it
    throws is a TypeError.  A field holding [null] or [undefined] is treated
    like a missing one. *)
Theorem validateForm_completion (data : gmap string jsval) :
  ((exists errors, validateForm data = Normal errors) <->
   trimmable (get data "name") /\ trimmable (get data "email")
   /\ (trims_truthy (get data "email") = true -> printable (get data "email"))
   /\ trimmable (get data "message"))
  /\ (plain_value (get data "name") -> plain_value (get data "email") ->
      plain_value (get data "message") ->
      (validateForm data = Throw TypeError <->
       (exists truth repr, get data "name" = Other truth None repr)
       \/ (exists truth repr, get data "email" = Other truth None repr)
       \/ (exists truth repr, get data "message" = Other truth None repr)))
  /\ (forall key,
        validateForm (<[key := Null]> data) = validateForm (delete key data))
  /\ (forall key,
        validateForm (<[key := Undefined]> data)
        = validateForm (delete key data)).
Proof.
  split; [apply validateForm_normal_iff|].
  split; [|split; intros key; now apply validateForm_absent_like].
  unfold validateForm.
  destruct (get data "name") as [| |n|tn [mn|] rn],
    (get data "email") as [| |e|te [me|] re],
    (get data "message") as [| |m|tm [mm|] rm]; simpl;
    intros Hn He Hm; try contradiction;
    repeat match goal with
           | |- context [if ?b then _ else _] => destruct b
           end; simpl;
    (split;
     [ intros H; try discriminate H; eauto 6
     | intros [(? & ? & H) | [(? & ? & H) | (? & ? & H)]];
       try discriminate H; reflexivity ]).
Qed.

(** An instance of X1: a String object as email, which has the [trim] of
    strings and converts to its text. *)
Lemma validateForm_completion_witness :
  exists errors,
    validateForm
      {[ "name" := Str (js "John Doe");
         "email" := Other true (Some (Normal (Str (js "john@example.com"))))
                          (Normal (js "john@example.com"));
         "message" := Str (js "Test message") ]}
    = Normal errors.
Proof.
  apply (proj1 (validateForm_completion _)).
  repeat split.
Defined.

(** X2.  On a mapping whose present values are strings, each "... is
    required." message is reported exactly when the text of its field
    consists of white space only (the empty text and a missing key
    included). *)
Theorem validateForm_required_iff_blank (d : gmap string jsstring) :
  exists errors,
    validateForm (Str <$> d) = Normal errors
    /\ (js "Name is required." ∈ errors
        <-> Forall (fun c => is_space c = true) (text d "name"))
    /\ (js "Email is required." ∈ errors
        <-> Forall (fun c => is_space c = true) (text d "email"))
    /\ (js "Message is required." ∈ errors
        <-> Forall (fun c => is_space c = true) (text d "message")).
Proof.
  rewrite validateForm_strings. eexists. split; [reflexivity|].
  rewrite <- !trim_nil_iff.
  split; [apply name_required_reported|].
  split; [apply email_required_reported | apply message_required_reported].
Qed.

Lemma occurrences_app c s1 s2 :
  occurrences c (s1 ++ s2) = (occurrences c s1 + occurrences c s2)%nat.
Proof. unfold occurrences. now rewrite filter_app, length_app. Qed.

Lemma occurrences_plain s : Forall plain s -> occurrences 64 s = 0%nat.
Proof.
  unfold occurrences. induction 1 as [|c s [_ Hc] _ IH]; [reflexivity|].
  now rewrite filter_cons_False.
Qed.

Lemma email_shape_facts s :
  email_shape s ->
  occurrences 64 s = 1%nat /\ Forall (fun c => is_space c = false) s
  /\ (5 <= length s)%nat.
Proof.
  intros Hs. split; [|split; [now apply email_shape_no_space|]];
    destruct Hs as (user & domain & tail & -> & Hu & Hd & Ht & Fu & Fd & Ft).
  - change (64 :: domain ++ 46 :: tail) with ([64] ++ domain ++ [46] ++ tail).
    rewrite !occurrences_app, (occurrences_plain user),
      (occurrences_plain domain), (occurrences_plain tail) by assumption.
    reflexivity.
  - rewrite length_app. simpl. rewrite length_app. simpl.
    destruct user, domain, tail; simpl; try congruence; lia.
Qed.

(** X3.  An email that [validateForm] reports no error for contains exactly
    one [@] and no white space at all, and is at least five code units
    long. *)
Theorem validateForm_accepted_email_shape
    (d : gmap string jsstring) (errors : list jsstring) :
  validateForm (Str <$> d) = Normal errors ->
  js "Email is required." ∉ errors ->
  js "Please enter a valid email address." ∉ errors ->
  occurrences 64 (text d "email") = 1%nat
  /\ Forall (fun c => is_space c = false) (text d "email")
  /\ (5 <= length (text d "email"))%nat.
Proof.
  rewrite validateForm_strings. intros [= <-] Hreq Hinv.
  apply email_shape_facts, test_emailPattern.
  change (js "Email is required.") with email_required in Hreq.
  change (js "Please enter a valid email address.") with email_invalid in Hinv.
  rewrite email_required_reported in Hreq.
  rewrite email_invalid_reported in Hinv.
  destruct (test emailPattern (text d "email")); [reflexivity|].
  destruct Hinv. now split.
Qed.

(** An instance of X3: the valid form of the test suite. *)
Lemma validateForm_accepted_email_shape_witness :
  let d : gmap string jsstring :=
    {[ "name" := js "John Doe"; "email" := js "john@example.com";
       "message" := js "Test message" ]} in
  occurrences 64 (text d "email") = 1%nat
  /\ Forall (fun c => is_space c = false) (text d "email")
  /\ (5 <= length (text d "email"))%nat.
Proof.
  intros d. apply (validateForm_accepted_email_shape d []).
  - subst d. rewrite <- form_strings. reflexivity.
  - apply not_elem_of_nil.
  - apply not_elem_of_nil.
Defined.

(** ** The two validators on the same email *)

Lemma required_email_field_accepted field ui :
  fieldType field = js "email" -> required field = true ->
  (validateField field ui).2 = true
  <-> trim (value field) <> [] /\ email_shape (trim (value field)).
Proof.
  intros Ht Hr.
  rewrite <- not_false_iff_true, validateField_false_iff,
    <- (test_emailPattern (trim (value field))).
  destruct (trim (value field)) as [|c v]; [tauto|].
  destruct (test emailPattern (c :: v)); split.
  - easy.
  - intros _ [[_ H] | (_ & _ & H)]; [discriminate | now apply H].
  - intros H. destruct H. right. repeat split; [assumption | discriminate..].
  - intros [_ H]. discriminate.
Qed.

Lemma no_email_error_iff n e m :
  (email_required ∉ name_errors n ++ email_errors e ++ message_errors m)
  /\ (email_invalid ∉ name_errors n ++ email_errors e ++ message_errors m)
  <-> trim e <> [] /\ email_shape e.
Proof.
  rewrite email_required_reported, email_invalid_reported,
    <- test_emailPattern.
  destruct (test emailPattern e); split.
  - intros [H _]. now split.
  - intros [H _]. split; [assumption|]. intros [_ ?]. discriminate.
  - intros [H1 H2]. destruct H2. now split.
  - intros [_ H]. discriminate.
Qed.

(** X4.  For a required email field holding the text that [validateForm]
    finds under [email]: whenever [validateForm] reports no email error,
    [validateField] returns [true]; the converse holds when the text has no
    white space at either end. *)
Theorem validateField_accepts_what_validateForm_accepts
    (field : Field) (ui : FieldUI) (name message : jsstring) :
  fieldType field = js "email" -> required field = true ->
  exists errors,
    validateForm (form name (value field) message) = Normal errors
    /\ ((js "Email is required." ∉ errors)
        /\ (js "Please enter a valid email address." ∉ errors) ->
        (validateField field ui).2 = true)
    /\ (trim (value field) = value field ->
        (validateField field ui).2 = true ->
        (js "Email is required." ∉ errors)
        /\ (js "Please enter a valid email address." ∉ errors)).
Proof.
  intros Ht Hr. rewrite validateForm_form. eexists. split; [reflexivity|].
  change (js "Email is required.") with email_required.
  change (js "Please enter a valid email address.") with email_invalid.
  rewrite no_email_error_iff, required_email_field_accepted by assumption.
  split.
  - intros [Hne Hs]. rewrite (email_shape_trim _ Hs) in Hne |- *. now split.
  - intros ->. tauto.
Qed.

(** An instance of X4: the email field of the contact form holding a valid
    address. *)
Lemma validateField_accepts_what_validateForm_accepts_witness :
  (validateField {| value := js "john@example.com"; type := js "email";
                    tagName := js "INPUT"; required := true;
                    labels := [js "Email"] |}
                 {| error_class := false; aria_invalid := None;
                    error_message := None |}).2 = true.
Proof.
  destruct (validateField_accepts_what_validateForm_accepts
              {| value := js "john@example.com"; type := js "email";
                 tagName := js "INPUT"; required := true;
                 labels := [js "Email"] |}
              {| error_class := false; aria_invalid := None;
                 error_message := None |}
              (js "John Doe") (js "Test message") eq_refl eq_refl)
    as (errors & E & Hfield & _).
  apply Hfield. rewrite validateForm_form in E. injection E as <-.
  split; apply not_elem_of_nil.
Defined.

(** ** What validateField shows *)

Lemma field_error_required field :
  required field = true -> trim (value field) = [] ->
  field_error field = label_text field ++ js " is required.".
Proof.
  intros Hr Hv. unfold field_error. rewrite Hr, Hv. simpl.
  now rewrite andb_false_r.
Qed.

Lemma field_error_email field :
  fieldType field = js "email" -> trim (value field) <> [] ->
  ~ email_shape (trim (value field)) ->
  field_error field = email_invalid.
Proof.
  intros Ht Hv Hs. unfold field_error.
  rewrite <- test_emailPattern, not_true_iff_false in Hs.
  apply is_nil_false in Hv. rewrite Hv, Hs, andb_false_r, Ht. reflexivity.
Qed.

(** X5.  After [validateField] the field carries the [error] class exactly
    when the result is [false], [aria-invalid] says the same, and an error
    message is shown exactly then, whatever the field showed before.  The
    message of a required field whose trimmed value is empty is the text of
    its first label (or "This field" when there is none or it is empty)
    followed by " is required."; the message of an email field with a
    malformed value is "Please enter a valid email address.". *)
Theorem validateField_shows_its_result (field : Field) (ui : FieldUI) :
  let after := (validateField field ui).1 in
  let ok := (validateField field ui).2 in
  error_class after = negb ok
  /\ aria_invalid after = Some (negb ok)
  /\ (ok = true <-> error_message after = None)
  /\ (required field = true -> trim (value field) = [] ->
      error_message after
      = Some (match labels field with
              | first :: _ => if is_nil first then js "This field" else first
              | [] => js "This field"
              end ++ js " is required."))
  /\ (fieldType field = js "email" -> trim (value field) <> [] ->
      ~ email_shape (trim (value field)) ->
      error_message after = Some (js "Please enter a valid email address.")).
Proof.
  assert (Hshown : forall error, error <> [] ->
    field_error field = error ->
    error_message (validateField field ui).1 = Some error).
  { intros error Hne E. unfold validateField. rewrite E.
    now destruct error. }
  simpl. repeat split.
  - unfold validateField. now destruct (field_error field).
  - unfold validateField. now destruct (field_error field).
  - unfold validateField. now destruct (field_error field).
  - unfold validateField. now destruct (field_error field).
  - intros Hr Hv. apply Hshown.
    + apply required_message_nonempty.
    + now apply field_error_required.
  - intros Ht Hv Hs. apply Hshown; [discriminate|].
    now apply field_error_email.
Qed.

(** An instance of X5: the required name field of the contact form, left
    empty. *)
Lemma validateField_shows_its_result_witness :
  error_message
    (validateField {| value := js "  "; type := js "text";
                      tagName := js "INPUT"; required := true;
                      labels := [js "Name"] |}
                   {| error_class := false; aria_invalid := None;
                      error_message := None |}).1
  = Some (js "Name is required.").
Proof.
  apply (validateField_shows_its_result
           {| value := js "  "; type := js "text"; tagName := js "INPUT";
              required := true; labels := [js "Name"] |}); reflexivity.
Defined.

(** ** A field under blur and input events *)

Lemma field_run_snoc trace e s :
  field_run (trace ++ [e]) s = field_step (field_run trace s) e.
Proof. unfold field_run. now rewrite foldl_app. Qed.

(** X6.  Start from a field that shows no error.  Whatever blur and input
    events follow, the field carries the [error] class exactly when an error
    message is shown, and then [aria-invalid] is "true".  The converse fails:
    after a blur that found the field invalid, an input event removes the
    class and the message but leaves [aria-invalid] at "true", whatever text
    was typed. *)
Theorem field_error_marks_agree (field : Field) (ui : FieldUI)
    (trace : list field_event) :
  error_class ui = false -> error_message ui = None ->
  let s := field_run trace (field, ui) in
  (error_class s.2 = true <-> error_message s.2 <> None)
  /\ (error_class s.2 = true -> aria_invalid s.2 = Some true)
  /\ (forall text,
        (validateField s.1 s.2).2 = false ->
        let typed := field_run [Blur; Input text] s in
        error_class typed.2 = false /\ error_message typed.2 = None
        /\ aria_invalid typed.2 = Some true).
Proof.
  intros Hc Hm s. subst s.
  assert (Inv : (error_class (field_run trace (field, ui)).2 = true
                 <-> error_message (field_run trace (field, ui)).2 <> None)
                /\ (error_class (field_run trace (field, ui)).2 = true ->
                    aria_invalid (field_run trace (field, ui)).2 = Some true)).
  { induction trace as [|e trace IH] using rev_ind.
    - simpl. rewrite Hc, Hm. split; [split|]; easy.
    - rewrite field_run_snoc. destruct e as [|text]; simpl.
      + unfold validateField.
        destruct (field_error (field_run trace (field, ui)).1); simpl;
          split; [split| |split|]; easy.
      + split; [split|]; easy. }
  destruct Inv as [Hiff Haria]. split; [exact Hiff|]. split; [exact Haria|].
  intros text Hbad. simpl. repeat split.
  unfold validateField in *.
  destruct (field_error (field_run trace (field, ui)).1); [discriminate Hbad|].
  reflexivity.
Qed.

(** An instance of X6: the email field is left with a malformed address,
    which is then corrected. *)
Lemma field_error_marks_agree_witness :
  let field := {| value := js "invalid-email"; type := js "email";
                  tagName := js "INPUT"; required := true;
                  labels := [js "Email"] |} in
  let ui := {| error_class := false; aria_invalid := None;
               error_message := None |} in
  let typed := field_run [Blur; Input (js "john@example.com")] (field, ui) in
  error_class typed.2 = false /\ error_message typed.2 = None
  /\ aria_invalid typed.2 = Some true.
Proof.
  intros field ui.
  destruct (field_error_marks_agree field ui [] eq_refl eq_refl)
    as (_ & _ & Htyped).
  apply (Htyped (js "john@example.com")). reflexivity.
Defined.

(** ** The timer queue *)

Section QueueFacts.
Context {C S : Type}.
Variable run : N -> C -> S -> S.
Implicit Types (t u : timer C) (q : list (timer C)).

Lemma elem_of_enqueue u t q : u ∈ enqueue t q <-> u = t \/ u ∈ q.
Proof.
  induction q as [|v q IH]; simpl.
  - rewrite list_elem_of_singleton, elem_of_nil. tauto.
  - destruct (due v <=? due t); rewrite !elem_of_cons, ?IH; tauto.
Qed.

(** The timers still pending after the event loop ran were pending before. *)
Lemma fire_pending until q : forall s u,
  u ∈ (fire run until q s).1 -> u ∈ q.
Proof.
  induction q as [|v q IH]; intros s u; simpl; [easy|].
  destruct (due v <=? until); [|easy].
  intros H. apply elem_of_cons. right. now apply (IH _ _ H).
Qed.

(** Callbacks that change nothing leave the state as it is. *)
Lemma fire_unchanged until q s :
  (forall u, u ∈ q -> due u <= until -> run (due u) (callback u) s = s) ->
  (fire run until q s).2 = s.
Proof.
  induction q as [|v q IH]; intros H; simpl; [reflexivity|].
  destruct (N.leb_spec (due v) until) as [Hv | Hv]; [|reflexivity].
  rewrite (H v) by (assumption || constructor).
  apply IH. intros u Hu. apply H. now apply elem_of_cons; right.
Qed.

(** A property every callback preserves holds after the event loop ran. *)
Lemma fire_preserves (P : S -> Prop) until q : forall s,
  (forall now cb s', P s' -> P (run now cb s')) ->
  P s -> P (fire run until q s).2.
Proof.
  induction q as [|v q IH]; intros s H Hs; simpl; [assumption|].
  destruct (due v <=? until); [|assumption]. apply IH; auto.
Qed.

(** A timer that is due runs, wherever [setTimeout] put it in the queue:
    what its callback establishes, and every other callback preserves,
    holds afterwards. *)
Lemma fire_enqueued (P : S -> Prop) until t q : forall s,
  due t <= until ->
  (forall s', P (run (due t) (callback t) s')) ->
  (forall now cb s', P s' -> P (run now cb s')) ->
  P (fire run until (enqueue t q) s).2.
Proof.
  intros s Ht Hrun Hkeep. revert s.
  induction q as [|v q IH]; intros s; simpl.
  - destruct (N.leb_spec (due t) until); [apply Hrun | lia].
  - destruct (N.leb_spec (due v) (due t)) as [Hv | Hv]; simpl.
    + destruct (N.leb_spec (due v) until); [apply IH | lia].
    + destruct (N.leb_spec (due t) until); [|lia].
      apply (fire_preserves P until (v :: q)); [exact Hkeep | apply Hrun].
Qed.

End QueueFacts.

(** ** The messages of the contact form *)

Module FormMessagesFacts.
Import FormMessages.

Implicit Types (w : world) (p : page) (m : element).

Lemma messages_shown message type w :
  messages (showFormMessage message type w).2
  = Element (next_node w.2) type message :: tail (messages w.2).
Proof.
  unfold showFormMessage. case_bool_decide; simpl;
    now destruct (messages w.2).
Qed.

Lemma next_node_shown message type w :
  next_node (showFormMessage message type w).2 = N.succ (next_node w.2).
Proof. unfold showFormMessage. now case_bool_decide. Qed.

Lemma resets_shown message type w :
  resets (showFormMessage message type w).2 = resets w.2.
Proof. unfold showFormMessage. now case_bool_decide. Qed.

Lemma clock_shown message type w :
  clock (showFormMessage message type w).1 = clock w.1.
Proof. unfold showFormMessage. now case_bool_decide. Qed.

Lemma host_shown_error message w :
  (showFormMessage message (js "error") w).1 = w.1.
Proof. reflexivity. Qed.

Lemma queue_shown_success message w :
  queue (showFormMessage message (js "success") w).1
  = enqueue (Timer (next_handle w.1) (clock w.1 + 5000)
                   (AutoHide (next_node w.2)))
            (queue w.1).
Proof. reflexivity. Qed.

Lemma pending_shown message type w u :
  u ∈ queue (showFormMessage message type w).1 ->
  u ∈ queue w.1 \/ Timers.callback u = AutoHide (next_node w.2).
Proof.
  unfold showFormMessage. case_bool_decide; simpl; [|now left].
  rewrite elem_of_enqueue. intros [-> | Hu]; [now right | now left].
Qed.

Lemma elem_of_detach m id l : m ∈ detach id l <-> node m <> id /\ m ∈ l.
Proof. unfold detach. now rewrite list_elem_of_filter. Qed.

Lemma detach_other id l :
  Forall (fun m => node m <> id) l -> detach id l = l.
Proof.
  unfold detach. induction 1 as [|m l Hm _ IH]; [reflexivity|].
  now rewrite filter_cons_True, IH.
Qed.

Lemma tidy_init : tidy init.
Proof. repeat split; simpl; auto. Qed.

Lemma tidy_shown message type w : tidy w -> tidy (showFormMessage message type w).
Proof.
  intros [[Hm Hq] Hone]. split; [split|].
  - rewrite messages_shown, next_node_shown. constructor; [simpl; lia|].
    destruct (messages w.2) as [|m l]; [constructor|]. simpl.
    apply Forall_inv_tail in Hm. eapply Forall_impl; [exact Hm|].
    simpl. intros; lia.
  - rewrite next_node_shown. apply Forall_forall. intros u Hu.
    apply pending_shown in Hu as [Hu | ->]; [|lia].
    rewrite Forall_forall in Hq. specialize (Hq u Hu).
    destruct (Timers.callback u). lia.
  - rewrite messages_shown. destruct (messages w.2) as [|m l]; simpl in *; lia.
Qed.

Lemma tidy_elapse dt w : tidy w -> tidy (elapse run_callback dt w).
Proof.
  intros [[Hm Hq] Hone].
  assert (Hkeep : forall (P : page -> Prop),
    (forall now cb p, P p -> P (run_callback now cb p)) -> P w.2 ->
    P (elapse run_callback dt w).2).
  { intros P HP Hw. unfold elapse. simpl. apply fire_preserves; assumption. }
  assert (Hn : next_node (elapse run_callback dt w).2 = next_node w.2).
  { apply (Hkeep (fun p => next_node p = next_node w.2)); [|reflexivity].
    now intros now [id] p. }
  split; [split|]; rewrite ?Hn.
  - apply (Hkeep (fun p => Forall (fun m => node m < next_node w.2)
                             (messages p))); [|assumption].
    intros now [id] p H. simpl.
    apply Forall_forall. intros m [_ Hin]%elem_of_detach.
    rewrite Forall_forall in H. now apply H.
  - apply Forall_forall. intros u Hu. apply fire_pending in Hu.
    rewrite Forall_forall in Hq. now apply Hq.
  - apply (Hkeep (fun p => (length (messages p) <= 1)%nat)); [|assumption].
    intros now [id] p H. simpl. unfold detach.
    pose proof (length_filter (fun m => node m <> id) (messages p)). lia.
Qed.

Lemma on_submit_normal data errors w :
  validateForm data = Normal errors ->
  on_submit data w
  = Normal (if is_nil errors
            then reset (showFormMessage thanks (js "success") w)
            else showFormErrors errors w).
Proof.
  intros E. unfold on_submit. rewrite E. simpl. now destruct errors.
Qed.

Lemma tidy_step w e : tidy w -> tidy (step w e).
Proof.
  intros Hw. destruct e as [data | dt]; simpl; [|now apply tidy_elapse].
  destruct (validateForm data) as [errors|] eqn:E.
  - rewrite (on_submit_normal data errors w E).
    destruct (is_nil errors); [|now apply tidy_shown].
    apply (tidy_shown thanks (js "success")) in Hw.
    destruct Hw as [[Hm Hq] Hone]. now repeat split.
  - unfold on_submit. rewrite E. exact Hw.
Qed.

Lemma form_run_snoc trace e w : run (trace ++ [e]) w = step (run trace w) e.
Proof. unfold run. now rewrite foldl_app. Qed.

Lemma tidy_run trace : tidy (run trace init).
Proof.
  induction trace as [|e trace IH] using rev_ind.
  - apply tidy_init.
  - rewrite form_run_snoc. now apply tidy_step.
Qed.

(** With at most one message attached, the message just shown is the only
    one. *)
Lemma only_message_shown message type w :
  tidy w ->
  messages (showFormMessage message type w).2
  = [Element (next_node w.2) type message].
Proof.
  intros [_ Hone]. rewrite messages_shown.
  destruct (messages w.2) as [|m [|m' l]]; simpl in *; [reflexivity.. | lia].
Qed.

(** A timer set before an element was created does not remove it. *)
Lemma earlier_timers_spare message type w u now p :
  tidy w -> u ∈ queue w.1 ->
  messages p = [Element (next_node w.2) type message] ->
  run_callback now (Timers.callback u) p = p.
Proof.
  intros [[_ Hq] _] Hu Hp. rewrite Forall_forall in Hq. specialize (Hq u Hu).
  destruct (Timers.callback u) as [id]. destruct p as [l n s r].
  simpl in *. subst l. rewrite detach_other; [reflexivity|].
  constructor; [simpl; lia | constructor].
Qed.

Lemma join_bullets (separator : jsstring) (l : list jsstring) :
  l <> [] ->
  separator ++ join separator l = concat (map (app separator) l).
Proof.
  induction l as [|x [|y l] IH]; intros Hl; [congruence | |].
  - simpl. now rewrite app_nil_r.
  - change (join separator (x :: y :: l))
      with (x ++ separator ++ join separator (y :: l)).
    rewrite IH by discriminate. simpl. apply app_assoc.
Qed.

Lemma step_submit data errors w :
  validateForm data = Normal errors ->
  step w (Submit data)
  = if is_nil errors
    then reset (showFormMessage thanks (js "success") w)
    else showFormErrors errors w.
Proof. intros E. simpl. now rewrite (on_submit_normal data errors w E). Qed.

Lemma messages_elapse dt w :
  messages (elapse run_callback dt w).2
  = messages (fire run_callback (clock w.1 + dt) (queue w.1) w.2).2.
Proof. reflexivity. Qed.

(** X7.  In any state a run of submissions and pauses leads to, submitting
    a form whose values are strings shows exactly one message: when
    [validateForm] finds no error, the thanks with type "success", and the
    form is reset; otherwise the text made of the errors with type "error",
    the form is not reset and no timer is set. *)
Theorem submit_shows_outcome (trace : list event) (d : gmap string jsstring) :
  let w := run trace init in
  exists errors w',
    validateForm (Str <$> d) = Normal errors
    /\ on_submit (Str <$> d) w = Normal w'
    /\ (errors = [] ->
        messages w'.2 = [Element (next_node w.2) (js "success") thanks]
        /\ resets w'.2 = S (resets w.2))
    /\ (errors <> [] ->
        messages w'.2
        = [Element (next_node w.2) (js "error") (errorMessage errors)]
        /\ resets w'.2 = resets w.2 /\ w'.1 = w.1).
Proof.
  intros w. pose proof (tidy_run trace) as Hw. fold w in Hw.
  pose proof (validateForm_strings d) as E.
  eexists. eexists. split; [exact E|].
  split; [apply on_submit_normal, E|].
  split.
  - intros ->. split.
    + exact (only_message_shown thanks (js "success") w Hw).
    + exact (f_equal S (resets_shown thanks (js "success") w)).
  - intros Hne. apply is_nil_false in Hne. rewrite Hne.
    unfold showFormErrors. rewrite only_message_shown by assumption.
    now rewrite resets_shown.
Qed.

(** X8.  The text shown for a single error is that error.  For two or more
    errors it is the header "Please fix the following errors:" followed by
    the errors in order, each on a line of its own after a bullet. *)
Theorem errorMessage_one_line_per_error (errors : list jsstring) :
  (forall only, errors = [only] -> errorMessage errors = only)
  /\ ((2 <= length errors)%nat ->
      errorMessage errors
      = js "Please fix the following errors:"
        ++ concat (map (fun e => [10; 8226; 32] ++ e) errors)).
Proof.
  split; [now intros only ->|].
  destruct errors as [|x [|y l]]; intros Hlen; [simpl in Hlen; lia..|].
  change (errorMessage (x :: y :: l))
    with (errors_header ++ bullet ++ join bullet (x :: y :: l)).
  rewrite join_bullets by discriminate. reflexivity.
Qed.

(** An instance of X8: the three errors of the empty form. *)
Lemma errorMessage_one_line_per_error_witness :
  errorMessage [name_required; email_required; message_required]
  = js "Please fix the following errors:"
    ++ [10; 8226; 32] ++ js "Name is required."
    ++ [10; 8226; 32] ++ js "Email is required."
    ++ [10; 8226; 32] ++ js "Message is required.".
Proof.
  rewrite (proj2 (errorMessage_one_line_per_error _)) by (simpl; lia).
  reflexivity.
Defined.

(** X9.  However many submissions and pauses there were, at most one
    message is attached to the form. *)
Theorem at_most_one_form_message (trace : list event) :
  (length (messages (run trace init).2) <= 1)%nat.
Proof. apply tidy_run. Qed.

(** X10.  A submission without errors, in any state a run of submissions
    and pauses leads to, shows the thanks; the thanks is still the one
    message shown after any pause shorter than 5000 ms, whatever timers of
    earlier messages run meanwhile, and no message is shown after a pause
    of 5000 ms or more. *)
Theorem success_message_lives_five_seconds
    (trace : list event) (data : gmap string jsval) (dt : N) :
  validateForm data = Normal [] ->
  let w := run trace init in
  let shown := Element (next_node w.2) (js "success") thanks in
  messages (run [Submit data] w).2 = [shown]
  /\ (dt < 5000 -> messages (run [Submit data; Elapse dt] w).2 = [shown])
  /\ (5000 <= dt -> messages (run [Submit data; Elapse dt] w).2 = []).
Proof.
  intros E w shown. pose proof (tidy_run trace) as Hw. fold w in Hw.
  change (run [Submit data] w) with (step w (Submit data)).
  change (run [Submit data; Elapse dt] w)
    with (elapse run_callback dt (step w (Submit data))).
  rewrite (step_submit data [] w E). simpl is_nil. cbv iota.
  set (w1 := reset (showFormMessage thanks (js "success") w)).
  assert (Hm : messages w1.2 = [shown]).
  { now apply (only_message_shown thanks (js "success")). }
  assert (Hq : queue w1.1
               = enqueue (Timer (next_handle w.1) (clock w.1 + 5000)
                                (AutoHide (next_node w.2))) (queue w.1)).
  { reflexivity. }
  assert (Hc : clock w1.1 = clock w.1) by reflexivity.
  split; [exact Hm|]. rewrite messages_elapse, Hq, Hc. split.
  - intros Hdt. rewrite fire_unchanged; [exact Hm|].
    intros u [-> | Hu]%elem_of_enqueue Hdue; [simpl in Hdue; lia|].
    now apply (earlier_timers_spare thanks (js "success") w).
  - intros Hdt.
    set (t := Timer (next_handle w.1) (clock w.1 + 5000)
                    (AutoHide (next_node w.2))).
    assert (Hgone : forall m,
      m ∈ messages (fire run_callback (clock w.1 + dt)
                      (enqueue t (queue w.1)) w1.2).2 ->
      node m <> next_node w.2).
    { apply (fire_enqueued run_callback
               (fun p => forall m, m ∈ messages p -> node m <> next_node w.2)).
      - simpl. lia.
      - intros p m [H _]%elem_of_detach. exact H.
      - intros now [id] p H m [_ Hin]%elem_of_detach. now apply H. }
    assert (Hold : forall m,
      m ∈ messages (fire run_callback (clock w.1 + dt)
                      (enqueue t (queue w.1)) w1.2).2 ->
      m = shown).
    { apply (fire_preserves run_callback
               (fun p => forall m, m ∈ messages p -> m = shown)).
      - intros now [id] p H m [_ Hin]%elem_of_detach. now apply H.
      - rewrite Hm. now intros m ->%list_elem_of_singleton. }
    fold t.
    destruct (messages (fire run_callback (clock w.1 + dt)
                          (enqueue t (queue w.1)) w1.2).2) as [|m l];
      [reflexivity|].
    assert (Hin : m ∈ m :: l) by constructor.
    pose proof (Hgone m Hin) as Hne. rewrite (Hold m Hin) in Hne.
    now destruct Hne.
Qed.

(** An instance of X10: the valid form of the test suite, submitted on a
    fresh page. *)
Lemma success_message_lives_five_seconds_witness :
  let data := form (js "John Doe") (js "john@example.com") (js "Test message") in
  messages (run [Submit data; Elapse 4999] init).2
  = [Element 0 (js "success") thanks]
  /\ messages (run [Submit data; Elapse 5000] init).2 = [].
Proof.
  intros data.
  assert (E : validateForm data = Normal []) by reflexivity.
  split.
  - apply (success_message_lives_five_seconds [] data 4999 E). lia.
  - apply (success_message_lives_five_seconds [] data 5000 E). lia.
Defined.

(** X11.  A submission with errors, in any state a run of submissions and
    pauses leads to, shows the error text, and that message is still the one
    shown after any pause: no timer removes it. *)
Theorem error_message_stays
    (trace : list event) (data : gmap string jsval)
    (errors : list jsstring) (dt : N) :
  validateForm data = Normal errors -> errors <> [] ->
  let w := run trace init in
  messages (run [Submit data; Elapse dt] w).2
  = [Element (next_node w.2) (js "error") (errorMessage errors)].
Proof.
  intros E Hne w. pose proof (tidy_run trace) as Hw. fold w in Hw.
  change (run [Submit data; Elapse dt] w)
    with (elapse run_callback dt (step w (Submit data))).
  rewrite (step_submit data errors w E).
  apply is_nil_false in Hne. rewrite Hne. unfold showFormErrors.
  set (w1 := showFormMessage (errorMessage errors) (js "error") w).
  assert (Hm : messages w1.2
               = [Element (next_node w.2) (js "error") (errorMessage errors)]).
  { now apply only_message_shown. }
  rewrite messages_elapse, fire_unchanged; [exact Hm|].
  intros u Hu _.
  now apply (earlier_timers_spare (errorMessage errors) (js "error") w).
Qed.

(** An instance of X11: a thanks is replaced by the errors of the empty form
    1 s later; its timer runs 4 s after that and removes nothing. *)
Lemma error_message_stays_witness :
  let valid := form (js "John Doe") (js "john@example.com") (js "Test message") in
  let empty := form (js "") (js "") (js "") in
  messages (run [Submit empty; Elapse 6000]
              (run [Submit valid; Elapse 1000] init)).2
  = [Element 1 (js "error")
       (errorMessage [name_required; email_required; message_required])].
Proof.
  intros valid empty.
  apply (error_message_stays [Submit valid; Elapse 1000] empty
           [name_required; email_required; message_required] 6000);
    [reflexivity | discriminate].
Defined.

End FormMessagesFacts.

(** ** The rate of a throttled function *)

Lemma spaced_nil {A} gap : spaced gap ([] : list (N * A)).
Proof. intros i t1 a1 t2 a2 H. discriminate H. Qed.

Lemma spaced_snoc {A} gap (log : list (N * A)) t a :
  spaced gap log ->
  (forall t0 a0, last log = Some (t0, a0) -> t0 + gap <= t) ->
  spaced gap (log ++ [(t, a)]).
Proof.
  intros Hlog Hlast i t1 a1 t2 a2 H1 H2.
  destruct (decide (S i < length log)%nat) as [Hi | Hi].
  - rewrite lookup_app_l in H1, H2 by lia. now apply (Hlog i t1 a1 t2 a2).
  - apply lookup_lt_Some in H2 as Hlen. rewrite length_app in Hlen.
    simpl in Hlen. assert (S i = length log) as Ei by lia.
    rewrite lookup_app_r, Ei, Nat.sub_diag in H2 by lia.
    injection H2 as <- <-.
    rewrite lookup_app_l in H1 by lia.
    apply (Hlast t1 a1). rewrite last_lookup, <- Ei. exact H1.
Qed.

Module ThrottleRate.
Import Throttle.

Section Rate.
Context {A : Type}.
Variable func : A -> behaviour A.
Variable limit : N.
Implicit Types (w : world A) (trace : list (event A)).

(** [func] returns normally and does not itself call the wrapped
    function. *)
Hypothesis func_returns : forall a, func a = Returns.

Lemma spaced_step w e :
  consistent limit w -> spaced limit (invoked w.2) ->
  spaced limit (invoked (step func limit w e).2).
Proof.
  intros Hw Hs. destruct e as [a | dt]; cbn [step].
  - destruct Hw as [Ho | Hc].
    + now rewrite ThrottleFacts.throttle_when_open.
    + rewrite ThrottleFacts.throttle_when_closed by assumption. simpl.
      apply spaced_snoc; [assumption | apply Hc].
  - destruct Hw as [Ho | Hc].
    + pose proof Ho as (_ & t & a & id & Hlast & _).
      destruct (N.le_gt_cases (t + limit) (clock w.1 + dt)).
      * now rewrite (ThrottleFacts.elapse_past_window limit dt w t a).
      * now rewrite (ThrottleFacts.elapse_within_window limit dt w t a).
    + now rewrite (ThrottleFacts.elapse_when_closed limit).
Qed.

Lemma spaced_run trace : spaced limit (invoked (run func limit trace init).2).
Proof.
  induction trace as [|e trace IH] using rev_ind.
  - apply spaced_nil.
  - rewrite ThrottleFacts.run_snoc. apply spaced_step; [|exact IH].
    now apply ThrottleFacts.throttle_consistent_run.
Qed.

(** X12.  When [func] returns normally and does not itself call the wrapped
    function: whatever calls and pauses the throttled function sees, any two
    consecutive invocations of [func] are at least [limit] apart. *)
Theorem throttle_invocations_spaced trace i t1 a1 t2 a2 :
  invoked (run func limit trace init).2 !! i = Some (t1, a1) ->
  invoked (run func limit trace init).2 !! S i = Some (t2, a2) ->
  t1 + limit <= t2.
Proof. apply spaced_run. Qed.

End Rate.

Section Timer.
Context {A : Type}.
Variable func : A -> behaviour A.
Variable limit : N.
Implicit Types (w : world A) (trace : list (event A)).

(** [func] does not itself call the wrapped function; it may throw. *)
Hypothesis func_plain : forall a, func a = Returns \/ func a = Throws.

Lemma one_timer_step w e :
  (length (queue w.1) <= 1)%nat
  /\ (inThrottle w.2 = true <-> queue w.1 <> []) ->
  let w' := step func limit w e in
  (length (queue w'.1) <= 1)%nat
  /\ (inThrottle w'.2 = true <-> queue w'.1 <> []).
Proof.
  destruct w as [[c n q] [f log]]. simpl. intros [Hlen Hiff].
  destruct e as [a | dt]; cbn [step].
  - destruct f.
    + rewrite ThrottleFacts.throttle_when_set by reflexivity. now split.
    + rewrite ThrottleFacts.throttle_when_unset by reflexivity.
      destruct q as [|u q];
        [|assert (false = true) by (now apply Hiff); discriminate].
      destruct (func_plain a) as [-> | ->]; simpl.
      * split; [lia|]. split; [discriminate | reflexivity].
      * split; [lia|]. split; [discriminate | congruence].
  - destruct q as [|u [|u' q]]; [| |simpl in Hlen; lia].
    + now split.
    + unfold elapse. simpl. destruct (due u <=? c + dt); simpl.
      * destruct (Timers.callback u). simpl.
        split; [lia|]. split; [discriminate | congruence].
      * now split.
Qed.

(** X13.  When [func] does not itself call the wrapped function (it may
    throw): whatever calls and pauses the throttled function sees, at most
    one timer is pending, and [inThrottle] is set exactly while one is: the
    window cannot stay open without a timer that will close it. *)
Theorem throttle_one_timer trace :
  let w := run func limit trace init in
  (length (queue w.1) <= 1)%nat
  /\ (inThrottle w.2 = true <-> queue w.1 <> []).
Proof.
  induction trace as [|e trace IH] using rev_ind.
  - simpl. split; [lia|]. split; [discriminate | congruence].
  - rewrite ThrottleFacts.run_snoc. now apply one_timer_step.
Qed.

End Timer.

(** An instance of X12: two calls 150 ms apart under a limit of 100 ms. *)
Lemma throttle_invocations_spaced_witness : 0 + 100 <= 150.
Proof.
  apply (throttle_invocations_spaced (fun _ : N => Returns) 100
           (fun _ => eq_refl) [Call 1; Elapse 150; Call 2]
           0%nat 0 1 150 2); reflexivity.
Defined.

(** An instance of X13: a [func] that throws, called twice in a row. *)
Lemma throttle_one_timer_witness :
  let w := run (fun _ : N => Throws) 100 [Call 1; Call 2] init in
  (length (queue w.1) <= 1)%nat
  /\ (inThrottle w.2 = true <-> queue w.1 <> []).
Proof.
  apply (throttle_one_timer (fun _ : N => Throws) 100
           (fun _ => or_intror eq_refl)).
Defined.

End ThrottleRate.

(** ** The rate of a debounced function *)

Module DebounceRate.
Import Debounce.

Section Rate.
Context {A : Type}.
Variable wait : N.
Variable immediate : bool.
Implicit Types (w : world A) (trace : list (event A)).

Lemma timed_init : debounce_timed wait immediate (init : world A).
Proof. split; [apply spaced_nil | intros t a H; discriminate H]. Qed.

(** A call leaves the timing in order, whether it invokes [func] or not. *)
Lemma timed_call a w :
  consistent w -> debounce_timed wait immediate w ->
  debounce_timed wait immediate (debounce wait immediate a w).
Proof.
  intros Hw [Hs Hl].
  assert (Hquiet : forall log,
    spaced wait log ->
    (forall t b, last log = Some (t, b) -> t <= clock w.1) ->
    debounce_timed wait immediate (rearmed wait a w log)).
  { intros log Hlog Hpast. split; [exact Hlog|]. intros t b Hlast. simpl.
    apply Hpast in Hlast. split; [assumption|]. split; [|discriminate].
    intros u ->%list_elem_of_singleton. simpl. lia. }
  destruct Hw as (_ & [Hi | (id & at_ & b & Ha)]).
  - rewrite (DebounceFacts.debounce_when_idle wait immediate a w Hi).
    destruct immediate eqn:Ei.
    + apply Hquiet.
      * apply spaced_snoc; [assumption|]. intros t b Hlast.
        apply (Hl t b Hlast); [reflexivity | apply Hi].
      * intros t b. rewrite last_snoc. intros [= <- <-]. lia.
    + apply Hquiet; [assumption|]. intros t b Hlast. now apply (Hl t b).
  - rewrite (DebounceFacts.debounce_when_armed wait immediate a w id at_ b Ha).
    apply Hquiet; [assumption|]. intros t c Hlast. now apply (Hl t c).
Qed.

(** So does a pause, whether the pending timer runs in it or not. *)
Lemma timed_elapse dt w :
  consistent w -> debounce_timed wait immediate w ->
  debounce_timed wait immediate (elapse (run_callback immediate) dt w).
Proof.
  intros Hw [Hs Hl]. destruct Hw as (_ & [Hi | (id & at_ & b & Ha)]).
  - rewrite (DebounceFacts.elapse_when_idle immediate dt w Hi).
    split; [assumption|]. intros t c Hlast. simpl.
    destruct (Hl t c Hlast) as (Hpast & _ & Hquiet).
    split; [lia|]. split; [now intros u ?%elem_of_nil|].
    intros Ei _. specialize (Hquiet Ei (proj1 Hi)). lia.
  - pose proof Ha as (_ & _ & Hq).
    destruct (N.le_gt_cases at_ (clock w.1 + dt)) as [Hdue | Hdue].
    + rewrite (DebounceFacts.elapse_past_due immediate dt w id at_ b Ha Hdue).
      assert (Hat : forall t c, last (invoked w.2) = Some (t, c) ->
                                t + wait <= at_).
      { intros t c Hlast. destruct (Hl t c Hlast) as (_ & Hu & _).
        apply (Hu (Timer id at_ (Later b))). rewrite Hq. constructor. }
      destruct immediate; simpl.
      * split; [assumption|]. intros t c Hlast. simpl.
        specialize (Hat t c Hlast). destruct (Hl t c Hlast) as (Hpast & _).
        split; [lia|]. split; [now intros u ?%elem_of_nil | intros; lia].
      * split; [now apply spaced_snoc|]. intros t c. simpl.
        rewrite last_snoc. intros [= <- <-].
        split; [lia|]. split; [now intros u ?%elem_of_nil | discriminate].
    + rewrite (DebounceFacts.elapse_before_due immediate dt w id at_ b Ha Hdue).
      split; [assumption|]. intros t c Hlast. simpl.
      destruct (Hl t c Hlast) as (Hpast & Hu & _).
      split; [lia|]. split; [exact Hu|]. rewrite Hq. discriminate.
Qed.

Lemma timed_run trace :
  debounce_timed wait immediate (run wait immediate trace init).
Proof.
  induction trace as [|e trace IH] using rev_ind.
  - apply timed_init.
  - rewrite DebounceFacts.debounce_run_app.
    pose proof (DebounceFacts.consistent_run wait immediate trace) as Hw.
    destruct e as [a | dt].
    + now apply timed_call.
    + now apply timed_elapse.
Qed.

(** X14.  Whatever calls and pauses a debounced function sees, with
    [immediate] set or not, any two consecutive invocations of [func] are at
    least [wait] apart. *)
Theorem debounce_invocations_spaced trace i t1 a1 t2 a2 :
  invoked (run wait immediate trace init).2 !! i = Some (t1, a1) ->
  invoked (run wait immediate trace init).2 !! S i = Some (t2, a2) ->
  t1 + wait <= t2.
Proof. apply timed_run. Qed.

(** X15.  Whatever calls and pauses a debounced function sees, at most one
    timer is pending, and [timeout] is truthy exactly while one is: every
    call clears the timer it replaces. *)
Theorem debounce_one_timer trace :
  let w := run wait immediate trace init in
  (length (queue w.1) <= 1)%nat
  /\ (pending (timeout w.2) = true <-> queue w.1 <> []).
Proof.
  intros w. destruct (DebounceFacts.consistent_run wait immediate trace)
    as (_ & [[Hq Hp] | (id & at_ & a & Ht & Hid & Hq)]);
    fold w in Hq; rewrite Hq; simpl.
  - fold w in Hp. rewrite Hp. split; [lia|]. split; [discriminate | congruence].
  - fold w in Ht. rewrite Ht. simpl. apply N.eqb_neq in Hid as ->.
    split; [lia|]. split; [discriminate | reflexivity].
Qed.

End Rate.

(** An instance of X14: two bursts, the second 150 ms after the first, under
    a wait of 100 ms. *)
Lemma debounce_invocations_spaced_witness : 100 + 100 <= 250.
Proof.
  apply (debounce_invocations_spaced 100 false
           [Call 1; Call 2; Elapse 150; Call 3; Elapse 100]
           0%nat 100 2 250 3); reflexivity.
Defined.

End DebounceRate.

(** ** The navigation menu *)

Module NavigationFacts.
Import Navigation.

Section Facts.
Variable has_link : bool.

Lemma in_sync_step s e : in_sync s -> in_sync (step has_link s e).
Proof.
  destruct s as [menu toggle aria focus]. intros [Ht Ha]. simpl in *. subst.
  destruct e as [[| [|] | | [|]] | key]; simpl;
    try (destruct menu; split; reflexivity).
  unfold keydown. simpl.
  destruct (bool_decide (key = js "Escape")), menu; split; reflexivity.
Qed.

(** X16.  If the toggle button starts out with the same [active] class as
    the menu and an [aria-expanded] that says whether the menu is open, it
    stays so under every sequence of clicks and key presses, including
    clicks on same-page anchors, whose smooth-scroll listener closes the
    menu without touching the toggle's class. *)
Theorem toggle_mirrors_menu (trace : list event) (s : nav) :
  toggle_active s = menu_active s ->
  aria_expanded s = (if menu_active s then js "true" else js "false") ->
  let s' := run has_link trace s in
  toggle_active s' = menu_active s'
  /\ aria_expanded s' = (if menu_active s' then js "true" else js "false").
Proof.
  intros Ht Ha. assert (H : in_sync s) by now split.
  clear Ht Ha. revert s H.
  induction trace as [|e trace IH]; intros s H; [exact H|].
  apply (IH (step has_link s e)), in_sync_step, H.
Qed.

End Facts.

(** An instance of X16: the menu is opened and then a same-page anchor
    outside it is clicked. *)
Lemma toggle_mirrors_menu_witness :
  let s' := run true [Click OnToggle; Click (Outside true)]
                (Nav false false (js "false") None) in
  toggle_active s' = menu_active s'
  /\ aria_expanded s' = (if menu_active s' then js "true" else js "false").
Proof.
  apply (toggle_mirrors_menu true [Click OnToggle; Click (Outside true)]
           (Nav false false (js "false") None)); reflexivity.
Defined.

End NavigationFacts.

(** ** Lazy loading *)

Module LazyLoadingFacts.
Import LazyLoading.

Implicit Types (images : list image) (entries : list entry).

Lemma on_intersection_concat batches : forall images,
  foldl on_intersection images batches = foldl on_entry images (concat batches).
Proof.
  induction batches as [|b batches IH]; intros images; [reflexivity|].
  simpl. rewrite foldl_app. apply IH.
Qed.

Lemma length_on_entries entries : forall images,
  length (foldl on_entry images entries) = length images.
Proof.
  induction entries as [|e entries IH]; intros images; [reflexivity|].
  simpl. rewrite IH. unfold on_entry.
  destruct (isIntersecting e); [apply length_alter | reflexivity].
Qed.

Lemma seen_snoc i entries e :
  seen i (entries ++ [e])
  <-> seen i entries \/ (target e = i /\ isIntersecting e = true).
Proof.
  unfold seen. split.
  - intros (e' & [Hin | ->%list_elem_of_singleton]%elem_of_app & Ht & Hi);
      [left; eauto | right; auto].
  - intros [(e' & Hin & Ht & Hi) | [Ht Hi]].
    + exists e'. rewrite elem_of_app. auto.
    + exists e. rewrite elem_of_app, list_elem_of_singleton. auto.
Qed.

(** What a run of entries does to the image [i]: nothing, unless one of
    them reported it as intersecting. *)
Lemma entries_effect entries : forall images i img',
  foldl on_entry images entries !! i = Some img' ->
  exists img,
    images !! i = Some img
    /\ ((seen i entries /\ img' = Image (lazy_loading img) true false)
        \/ (~ seen i entries /\ img' = img)).
Proof.
  induction entries as [|e entries IH] using rev_ind; intros images i img'.
  - simpl. intros H. exists img'. split; [exact H|]. right.
    split; [|reflexivity]. intros (e & Hin & _). now apply elem_of_nil in Hin.
  - rewrite foldl_app. simpl. unfold on_entry at 1.
    destruct (isIntersecting e) eqn:Ei.
    + destruct (decide (target e = i)) as [<- | Hne].
      * rewrite list_lookup_alter_eq.
        destruct (foldl on_entry images entries !! target e) as [x|] eqn:Ex;
          [|discriminate]. intros [= <-].
        destruct (IH _ _ _ Ex) as (img & Himg & Hcase).
        exists img. split; [exact Himg|]. left.
        split; [apply seen_snoc; auto|].
        destruct Hcase as [[_ ->] | [_ ->]]; reflexivity.
      * rewrite list_lookup_alter_ne by assumption. intros H.
        destruct (IH _ _ _ H) as (img & Himg & Hcase).
        exists img. split; [exact Himg|]. rewrite seen_snoc. tauto.
    + intros H. destruct (IH _ _ _ H) as (img & Himg & Hcase).
      exists img. split; [exact Himg|]. rewrite seen_snoc.
      destruct Hcase as [[Hs ->] | [Hs ->]]; [left | right];
        (split; [|reflexivity]); [tauto|].
      intros [? | [_ ?]]; [auto | congruence].
Qed.

(** X17.  With an IntersectionObserver, and no image marked loaded in
    the markup: after [initializeLazyLoading] and any batches of observer
    entries the images are the same in number, each has the [lazy-loading]
    class (it is never removed), each is marked [lazy-loaded] exactly when
    some entry reported it as intersecting, and it is observed exactly while
    it is not marked. *)
Theorem lazy_loaded_iff_seen_intersecting
    (images : list image) (batches : list (list entry)) :
  Forall (fun img => lazy_loaded img = false) images ->
  let images' :=
    foldl on_intersection (initializeLazyLoading true images) batches in
  length images' = length images
  /\ forall i img,
       images' !! i = Some img ->
       lazy_loading img = true
       /\ observed img = negb (lazy_loaded img)
       /\ (lazy_loaded img = true
           <-> exists e, e ∈ concat batches /\ target e = i
                         /\ isIntersecting e = true).
Proof.
  intros Hfresh images'. subst images'. rewrite on_intersection_concat.
  split.
  - rewrite length_on_entries. simpl. apply length_map.
  - intros i img' H.
    apply entries_effect in H as (img & Himg & Hcase). simpl in Himg.
    rewrite list_lookup_fmap in Himg.
    destruct (images !! i) as [img0|] eqn:E0; [|discriminate].
    injection Himg as <-.
    rewrite Forall_forall in Hfresh.
    assert (Hl : lazy_loaded img0 = false).
    { apply Hfresh. eapply list_elem_of_lookup_2. exact E0. }
    fold (seen i (concat batches)).
    destruct Hcase as [[Hs ->] | [Hs ->]]; simpl; rewrite ?Hl.
    + repeat split; auto.
    + repeat split; [discriminate | intros; contradiction].
Qed.

(** An instance of X17: two images, of which the second comes into view. *)
Lemma lazy_loaded_iff_seen_intersecting_witness :
  exists img,
    foldl on_intersection
      (initializeLazyLoading true
         [Image false false false; Image false false false])
      [[Entry 0 false; Entry 1 false]; [Entry 1 true]]
    !! 1%nat = Some img
    /\ lazy_loaded img = true.
Proof.
  destruct (lazy_loaded_iff_seen_intersecting
              [Image false false false; Image false false false]
              [[Entry 0 false; Entry 1 false]; [Entry 1 true]])
    as [_ H]; [repeat constructor|].
  eexists. split; [reflexivity|].
  apply (H 1%nat _ eq_refl). exists (Entry 1 true).
  split; [|split; reflexivity]. simpl. repeat constructor.
Defined.

End LazyLoadingFacts.

(** ** The timer queue in order *)

Section QueueOrder.
Context {C S : Type}.
Variable run : N -> C -> S -> S.
Implicit Types (t u : timer C) (q : list (timer C)).

(** A timer due no earlier than all pending ones goes to the end. *)
Lemma enqueue_last t q :
  Forall (fun u => due u <= due t) q -> enqueue t q = q ++ [t].
Proof.
  induction 1 as [|u q Hu _ IH]; simpl; [reflexivity|].
  destruct (N.leb_spec (due u) (due t)); [now rewrite IH | lia].
Qed.

(** On a queue in order the event loop runs a front part, all due, and
    leaves the rest, none of which is due. *)
Lemma fire_split until q : forall s,
  StronglySorted (fun u v => due u <= due v) q ->
  exists fired,
    q = fired ++ (fire run until q s).1
    /\ Forall (fun u => due u <= until) fired
    /\ Forall (fun u => until < due u) (fire run until q s).1.
Proof.
  induction q as [|u q IH]; intros s Hq.
  - exists []. repeat split; constructor.
  - apply StronglySorted_inv in Hq as [Hq Hu]. simpl.
    destruct (N.leb_spec (due u) until) as [Hdue | Hdue].
    + destruct (IH (run (due u) (callback u) s) Hq) as (fired & E & Hf & Hr).
      exists (u :: fired). split; [simpl; now rewrite <- E|].
      split; [now constructor | exact Hr].
    + exists []. split; [reflexivity|]. split; [constructor|].
      constructor; [exact Hdue|].
      eapply Forall_impl; [exact Hu|]. simpl. intros; lia.
Qed.

End QueueOrder.

(** ** Announcements *)

Module AnnouncerFacts.
Import Announcer.

Implicit Types (w : world) (p : page) (el : element).

Lemma announcer_run_snoc trace e w :
  run (trace ++ [e]) w = step (run trace w) e.
Proof. unfold run. now rewrite foldl_app. Qed.

Lemma elapsed_snoc trace e :
  elapsed (trace ++ [e])
  = elapsed trace + match e with Elapse dt => dt | Announce _ => 0 end.
Proof.
  induction trace as [|e' trace IH]; simpl.
  - destruct e; lia.
  - rewrite IH. destruct e'; lia.
Qed.

Lemma remove_head el l :
  node el ∉ map node l ->
  filter (fun x => node x <> node el) (el :: l) = l.
Proof.
  intros Hel. rewrite filter_cons_False by tauto.
  induction l as [|x l IH]; [reflexivity|].
  rewrite filter_cons_True.
  - f_equal. apply IH. intros H. apply Hel. simpl. now right.
  - intros E. apply Hel. simpl. rewrite E. now left.
Qed.

(** While timers and announcements pair up, every callback finds its
    element, and what is left pairs up again. *)
Lemma fire_paired until q : forall p,
  map Timers.callback q
  = map (fun el => RemoveChild (node el)) (announcements p) ->
  NoDup (map node (announcements p)) ->
  let after := fire run_callback until q p in
  map Timers.callback after.1
  = map (fun el => RemoveChild (node el)) (announcements after.2)
  /\ (exists gone, announcements p = gone ++ announcements after.2)
  /\ next_node after.2 = next_node p
  /\ uncaught after.2 = uncaught p.
Proof.
  induction q as [|u q IH]; intros p Hpair Hdup; simpl.
  - split; [exact Hpair|]. split; [now exists []|]. now split.
  - destruct (announcements p) as [|el l] eqn:El; [discriminate Hpair|].
    injection Hpair as Hu Hpair.
    destruct (due u <=? until).
    + rewrite Hu. simpl. rewrite El. simpl. rewrite N.eqb_refl. simpl.
      apply NoDup_cons in Hdup as [Hel Hdup].
      rewrite remove_head by assumption.
      destruct (IH (Page l (next_node p) (uncaught p)) Hpair Hdup)
        as (Hq & (gone & Hgone) & Hn & Hc).
      split; [exact Hq|]. split; [|now split].
      exists (el :: gone). simpl in Hgone. simpl. now rewrite <- Hgone.
    + simpl. rewrite El. simpl. rewrite Hu, Hpair.
      split; [reflexivity|]. split; [now exists []|]. now split.
Qed.

Lemma orderly_init : orderly init.
Proof. repeat split; simpl; constructor. Qed.

Lemma orderly_announce message w :
  orderly w -> orderly (announceToScreenReader message w).
Proof.
  intros (Hpair & Hsort & Hdue & Hdup & Hfresh & Hc).
  assert (Hlast : enqueue (Timer (next_handle w.1) (clock w.1 + 1000)
                                 (RemoveChild (next_node w.2))) (queue w.1)
                  = queue w.1
                    ++ [Timer (next_handle w.1) (clock w.1 + 1000)
                              (RemoveChild (next_node w.2))]).
  { apply enqueue_last. eapply Forall_impl; [exact Hdue|]. simpl. intros; lia. }
  unfold orderly, announceToScreenReader. simpl. rewrite Hlast.
  split; [now rewrite !map_app, Hpair|].
  split.
  { apply StronglySorted_app_2; [|assumption | repeat constructor].
    intros u v Hu ->%list_elem_of_singleton. simpl.
    rewrite Forall_forall in Hdue. apply Hdue in Hu. lia. }
  split.
  { apply Forall_app. split; [assumption|].
    constructor; [simpl; lia | constructor]. }
  split.
  { rewrite map_app. apply NoDup_app. split; [assumption|].
    split; [|apply NoDup_singleton].
    intros x Hx ->%list_elem_of_singleton.
    apply list_elem_of_fmap in Hx as (el & E & Hel).
    rewrite Forall_forall in Hfresh. apply Hfresh in Hel.
    simpl in E. lia. }
  split; [|assumption].
  apply Forall_app. split.
  - eapply Forall_impl; [exact Hfresh|]. simpl. intros; lia.
  - constructor; [simpl; lia | constructor].
Qed.

Lemma orderly_elapse dt w :
  orderly w ->
  orderly (elapse run_callback dt w)
  /\ (exists gone,
        announcements w.2 = gone ++ announcements (elapse run_callback dt w).2)
  /\ (exists fired,
        queue w.1 = fired ++ queue (elapse run_callback dt w).1
        /\ Forall (fun u => due u <= clock w.1 + dt) fired)
  /\ next_node (elapse run_callback dt w).2 = next_node w.2.
Proof.
  intros (Hpair & Hsort & Hdue & Hdup & Hfresh & Hc).
  destruct (fire_paired (clock w.1 + dt) (queue w.1) w.2 Hpair Hdup)
    as (Hpair' & (gone & Hgone) & Hn & Hc').
  destruct (fire_split run_callback (clock w.1 + dt) (queue w.1) w.2 Hsort)
    as (fired & Hq & Hfired & Hrest).
  split; [|split; [now exists gone | split; [now exists fired | exact Hn]]].
  unfold orderly, elapse. simpl.
  split; [exact Hpair'|].
  split. { rewrite Hq in Hsort. now apply StronglySorted_app_1_r in Hsort. }
  split.
  { rewrite Hq in Hdue. apply Forall_app in Hdue as [_ Hdue].
    apply Forall_forall. intros u Hu.
    rewrite Forall_forall in Hdue, Hrest.
    specialize (Hdue u Hu). specialize (Hrest u Hu). lia. }
  split. { rewrite Hgone, map_app in Hdup. now apply NoDup_app in Hdup. }
  split; [|congruence].
  rewrite Hn. rewrite Hgone in Hfresh. now apply Forall_app in Hfresh.
Qed.

Lemma orderly_step w e : orderly w -> orderly (step w e).
Proof.
  intros Hw. destruct e as [message | dt]; cbn [step].
  - now apply orderly_announce.
  - now apply orderly_elapse.
Qed.

Lemma orderly_run trace : orderly (run trace init).
Proof.
  induction trace as [|e trace IH] using rev_ind.
  - apply orderly_init.
  - rewrite announcer_run_snoc. now apply orderly_step.
Qed.

Lemma NoDup_map_eq {A B} (f : A -> B) (l : list A) x y :
  NoDup (map f l) -> x ∈ l -> y ∈ l -> f x = f y -> x = y.
Proof.
  induction l as [|z l IH]; simpl; [now intros _ ?%elem_of_nil|].
  intros [Hz Hl]%NoDup_cons [-> | Hx]%elem_of_cons [-> | Hy]%elem_of_cons E.
  - reflexivity.
  - destruct Hz. rewrite E. apply list_elem_of_fmap. eauto.
  - destruct Hz. rewrite <- E. apply list_elem_of_fmap. eauto.
  - now apply IH.
Qed.

Lemma RemoveChild_inj : Inj (=) (=) RemoveChild.
Proof. now intros x y [= ->]. Qed.

(** Two pending timers that close over the same element are one timer. *)
Lemma timers_distinct w u v :
  orderly w -> u ∈ queue w.1 -> v ∈ queue w.1 ->
  Timers.callback u = Timers.callback v -> u = v.
Proof.
  intros (Hpair & _ & _ & Hdup & _). apply NoDup_map_eq. rewrite Hpair.
  change (map (fun el => RemoveChild (node el)) (announcements w.2))
    with ((RemoveChild ∘ node) <$> announcements w.2).
  rewrite list_fmap_compose.
  apply (@NoDup_fmap_2 _ _ RemoveChild RemoveChild_inj). exact Hdup.
Qed.

(** A pending timer closes over an attached element, and every attached
    element has its timer. *)
Lemma attached_iff_timer w id :
  orderly w ->
  id ∈ map node (announcements w.2)
  <-> exists u, u ∈ queue w.1 /\ Timers.callback u = RemoveChild id.
Proof.
  intros (Hpair & _). split.
  - intros (el & -> & Hel)%list_elem_of_fmap.
    assert (H : RemoveChild (node el) ∈ map Timers.callback (queue w.1)).
    { rewrite Hpair. apply list_elem_of_fmap. eauto. }
    apply list_elem_of_fmap in H as (u & E & Hu). eauto.
  - intros (u & Hu & E).
    assert (H : RemoveChild id
                ∈ map (fun el => RemoveChild (node el)) (announcements w.2)).
    { rewrite <- Hpair, <- E. apply list_elem_of_fmap. eauto. }
    apply list_elem_of_fmap in H as (el & [= ->] & Hel).
    apply list_elem_of_fmap. eauto.
Qed.

Lemma run_from trace rest :
  run rest (run trace init) = run (trace ++ rest) init.
Proof. unfold run. now rewrite foldl_app. Qed.

(** Where an announcement made in a reachable state is, after what
    follows: attached with its timer pending while less than 1000 ms have
    passed, detached afterwards. *)
Lemma announcement_tracked trace message rest :
  let w := run trace init in
  let id := next_node w.2 in
  let w' := run (Announce message :: rest) w in
  clock w'.1 = clock w.1 + elapsed rest
  /\ id < next_node w'.2
  /\ (elapsed rest < 1000 ->
      Element id message ∈ announcements w'.2
      /\ exists u, u ∈ queue w'.1 /\ Timers.callback u = RemoveChild id
                   /\ due u = clock w.1 + 1000)
  /\ (1000 <= elapsed rest -> id ∉ map node (announcements w'.2)).
Proof.
  intros w id. induction rest as [|e rest IH] using rev_ind; intros w'.
  - subst w'. change (run [Announce message] w)
      with (announceToScreenReader message w).
    simpl. split; [lia|]. split; [lia|]. split; [|lia]. intros _.
    split; [apply elem_of_app; right; constructor|].
    eexists. split; [apply elem_of_enqueue; left; reflexivity|]. now split.
  - subst w'. rewrite app_comm_cons, announcer_run_snoc, elapsed_snoc.
    set (w' := run (Announce message :: rest) w) in *.
    assert (Ho : orderly w').
    { subst w' w. rewrite run_from. apply orderly_run. }
    simpl in IH. destruct IH as (Hclock & Hnext & Hlive & Hgone).
    destruct e as [message' | dt]; cbn [step].
    + rewrite N.add_0_r. simpl.
      split; [exact Hclock|]. split; [lia|]. split.
      * intros Hlt. destruct (Hlive Hlt) as (Hel & u & Hu & Hcb & Hdue).
        split; [apply elem_of_app; now left|].
        exists u. split; [apply elem_of_enqueue; now right | now split].
      * intros Hge Hin. rewrite map_app in Hin.
        apply elem_of_app in Hin as [Hin | Hin%list_elem_of_singleton];
          [now apply (Hgone Hge) | simpl in Hin; lia].
    + destruct (orderly_elapse dt w' Ho)
        as (Ho' & (gone & Egone) & (fired & Efired & Hfired) & Hn).
      split; [simpl; lia|]. split; [now rewrite Hn|]. split.
      * intros Hlt. assert (Hlt' : elapsed rest < 1000) by lia.
        destruct (Hlive Hlt') as (Hel & u & Hu & Hcb & Hdue).
        assert (Hu' : u ∈ queue (elapse run_callback dt w').1).
        { rewrite Efired in Hu. apply elem_of_app in Hu as [Hu | Hu]; [|exact Hu].
          rewrite Forall_forall in Hfired. apply Hfired in Hu. lia. }
        split; [|eauto].
        assert (Hid : id ∈ map node (announcements (elapse run_callback dt w').2)).
        { apply attached_iff_timer; eauto. }
        apply list_elem_of_fmap in Hid as (el' & Eid & Hel').
        assert (Hboth : el' ∈ announcements w'.2).
        { rewrite Egone. apply elem_of_app. now right. }
        destruct Ho as (_ & _ & _ & Hdup & _).
        now rewrite (NoDup_map_eq node _ _ el' Hdup Hel Hboth Eid).
      * intros Hge Hin.
        destruct (N.le_gt_cases 1000 (elapsed rest)) as [Hold | Hold].
        { apply (Hgone Hold). rewrite Egone, map_app. apply elem_of_app.
          now right. }
        destruct (Hlive Hold) as (_ & u & Hu & Hcb & Hdue).
        apply (attached_iff_timer _ _ Ho') in Hin as (v & Hv & Hcv).
        assert (Hv' : v ∈ queue w'.1).
        { rewrite Efired. apply elem_of_app. now right. }
        assert (E : u = v).
        { apply (timers_distinct w'); [assumption.. | congruence]. }
        destruct Ho' as (_ & _ & Hdue' & _).
        rewrite Forall_forall in Hdue'. apply Hdue' in Hv.
        rewrite <- E in Hv. simpl in Hv. lia.
Qed.

(** X18.  Whatever announcements and pauses occur, no timer callback of
    [announceToScreenReader] throws ([removeChild] always finds its
    element), every attached announcement has exactly one pending removal
    timer, and after a pause of 1000 ms or more no announcement is
    attached. *)
Theorem announcements_never_fail_nor_leak (trace : list event) :
  uncaught (run trace init).2 = 0%nat
  /\ length (announcements (run trace init).2)
     = length (queue (run trace init).1)
  /\ forall dt, 1000 <= dt ->
       announcements (run (trace ++ [Elapse dt]) init).2 = [].
Proof.
  pose proof (orderly_run trace) as Ho.
  split; [apply Ho|]. split.
  - destruct Ho as (Hpair & _).
    apply (f_equal length) in Hpair. rewrite !length_map in Hpair. congruence.
  - intros dt Hdt. rewrite announcer_run_snoc. cbn [step].
    destruct (orderly_elapse dt _ Ho)
      as (Ho' & _ & (fired & Efired & _) & _).
    destruct Ho as (_ & _ & Hdue & _).
    destruct Ho' as (Hpair' & _ & Hdue' & _).
    destruct (queue (elapse run_callback dt (run trace init)).1)
      as [|u rest] eqn:Eq.
    + destruct (announcements _); [reflexivity | discriminate Hpair'].
    + apply Forall_inv in Hdue'. rewrite Efired in Hdue.
      apply Forall_app in Hdue as [_ Hdue]. apply Forall_inv in Hdue.
      simpl in Hdue'. lia.
Qed.

(** X19.  An announcement made in any state a run of announcements and
    pauses leads to is attached to the body exactly as long as less than
    1000 ms have passed since, whatever other announcements are made
    meanwhile. *)
Theorem announcement_lives_one_second
    (trace : list event) (message : jsstring) (rest : list event) :
  let w := run trace init in
  Element (next_node w.2) message
    ∈ announcements (run (Announce message :: rest) w).2
  <-> elapsed rest < 1000.
Proof.
  intros w.
  destruct (announcement_tracked trace message rest)
    as (_ & _ & Hlive & Hgone). fold w in Hlive, Hgone.
  split.
  - intros Hel. destruct (N.lt_ge_cases (elapsed rest) 1000) as [H | H];
      [exact H|].
    destruct (Hgone H). apply list_elem_of_fmap.
    exists (Element (next_node w.2) message). now split.
  - intros H. now apply Hlive.
Qed.

End AnnouncerFacts.

(** ** Scroll animations *)

Module ScrollAnimationsFacts.
Import ScrollAnimations.

Implicit Types (elements : list style) (entries : list entry).

Lemma reveal_concat batches : forall elements,
  foldl on_intersection elements batches
  = foldl on_entry elements (concat batches).
Proof.
  induction batches as [|b batches IH]; intros elements; [reflexivity|].
  simpl. rewrite foldl_app. apply IH.
Qed.

Lemma length_revealed entries : forall elements,
  length (foldl on_entry elements entries) = length elements.
Proof.
  induction entries as [|e entries IH]; intros elements; [reflexivity|].
  simpl. rewrite IH. unfold on_entry.
  destruct (isIntersecting e); [apply length_alter | reflexivity].
Qed.

Lemma seen_revealed_snoc i entries e :
  seen i (entries ++ [e])
  <-> seen i entries \/ (target e = i /\ isIntersecting e = true).
Proof.
  unfold seen. split.
  - intros (e' & [Hin | ->%list_elem_of_singleton]%elem_of_app & Ht & Hi);
      [left; eauto | right; auto].
  - intros [(e' & Hin & Ht & Hi) | [Ht Hi]].
    + exists e'. rewrite elem_of_app. auto.
    + exists e. rewrite elem_of_app, list_elem_of_singleton. auto.
Qed.

(** What a run of entries does to the element [i]: nothing, unless one of
    them reported it as intersecting. *)
Lemma reveal_effect entries : forall elements i s',
  foldl on_entry elements entries !! i = Some s' ->
  exists s,
    elements !! i = Some s
    /\ ((seen i entries
         /\ s' = Style (js "1") (js "translateY(0)") (transition s))
        \/ (~ seen i entries /\ s' = s)).
Proof.
  induction entries as [|e entries IH] using rev_ind; intros elements i s'.
  - simpl. intros H. exists s'. split; [exact H|]. right.
    split; [|reflexivity]. intros (e & Hin & _). now apply elem_of_nil in Hin.
  - rewrite foldl_app. simpl. unfold on_entry at 1.
    destruct (isIntersecting e) eqn:Ei.
    + destruct (decide (target e = i)) as [<- | Hne].
      * rewrite list_lookup_alter_eq.
        destruct (foldl on_entry elements entries !! target e) as [x|] eqn:Ex;
          [|discriminate]. intros [= <-].
        destruct (IH _ _ _ Ex) as (s & Hs & Hcase).
        exists s. split; [exact Hs|]. left.
        split; [apply seen_revealed_snoc; auto|].
        destruct Hcase as [[_ ->] | [_ ->]]; reflexivity.
      * rewrite list_lookup_alter_ne by assumption. intros H.
        destruct (IH _ _ _ H) as (s & Hs & Hcase).
        exists s. split; [exact Hs|]. rewrite seen_revealed_snoc. tauto.
    + intros H. destruct (IH _ _ _ H) as (s & Hs & Hcase).
      exists s. split; [exact Hs|]. rewrite seen_revealed_snoc.
      destruct Hcase as [[Hseen ->] | [Hseen ->]]; [left | right];
        (split; [|reflexivity]); [tauto|].
      intros [? | [_ ?]]; [auto | congruence].
Qed.

(** X20.  Without an IntersectionObserver [initializeScrollAnimations]
    leaves every element as it is.  With one, after any batches of observer
    entries an element is shown (opacity "1", no offset) exactly when some
    entry reported it as intersecting, and hidden (opacity "0", offset 30px)
    otherwise: an element that was shown once is never hidden again. *)
Theorem revealed_iff_seen_intersecting
    (elements : list style) (batches : list (list entry)) :
  initializeScrollAnimations false elements = elements
  /\ let elements' :=
       foldl on_intersection (initializeScrollAnimations true elements)
             batches in
     length elements' = length elements
     /\ forall i s,
          elements' !! i = Some s ->
          ((exists e, e ∈ concat batches /\ target e = i
                      /\ isIntersecting e = true)
           /\ opacity s = js "1" /\ transform s = js "translateY(0)")
          \/ (~ (exists e, e ∈ concat batches /\ target e = i
                           /\ isIntersecting e = true)
              /\ opacity s = js "0" /\ transform s = js "translateY(30px)").
Proof.
  split; [reflexivity|]. cbv zeta. rewrite reveal_concat. split.
  - rewrite length_revealed. apply length_map.
  - intros i s' H. apply reveal_effect in H as (s & Hs & Hcase).
    unfold initializeScrollAnimations in Hs. cbn [negb] in Hs.
    rewrite list_lookup_fmap in Hs.
    destruct (elements !! i); [|discriminate]. injection Hs as <-.
    fold (seen i (concat batches)).
    destruct Hcase as [[Hseen ->] | [Hseen ->]]; [left | right]; now split.
Qed.

End ScrollAnimationsFacts.
